(** * go-caskdb: the record codec and the disk store

    A shallow embedding of [header.go], of the format file ([encodeKV],
    [decodeKV]) and of the disk store ([NewDiskStore], [Get], [Set],
    [Close]).

    Conventions of the embedding:
    - a Go [string] and a Go [[]byte] are both [list byte]; a slice is
      modelled with [cap = len], which is what [make([]byte, n)] returns;
    - [uint32] values are [Z] with the wrap-around written as [uint32];
      [int] and [int64] are 64 bits wide;
    - a Go [error] result is the [Err] branch of [result]; a [panic] is the
      [Panic] branch of [outcome];
    - the file system, the table of open files and the package-level
      variable [keyDir] form the [World] that every store operation
      threads through. *)

From Stdlib Require Import ZArith Lia ZifyBool.
From Stdlib.Strings Require Import Byte.
From stdpp Require Import gmap list fin_maps.

Local Open Scope Z_scope.

(** ** Machine integers *)

Definition uint32 (x : Z) : Z := x mod 2 ^ 32.

(** [int64(x)]: two's complement wrap-around on 64 bits. *)
Definition int64 (x : Z) : Z := (x + 2 ^ 63) mod 2 ^ 64 - 2 ^ 63.

Definition maxInt64 : Z := 2 ^ 63 - 1.

(** ** Bytes *)

Definition b2z (b : byte) : Z := Z.of_N (Byte.to_N b).

(** [byte(x)]: the low eight bits. *)
Definition z2b (x : Z) : byte :=
  match Byte.of_N (Z.to_N (x mod 256)) with
  | Some b => b
  | None => x00
  end.

#[global] Instance byte_eq_dec : EqDecision byte.
Proof.
  intros a b. destruct (Byte.eqb a b) eqn:E.
  - left. by apply Byte.byte_dec_bl.
  - right. by apply Byte.eqb_false.
Defined.

#[global] Instance byte_countable : Countable byte :=
  inj_countable Byte.to_N Byte.of_N Byte.of_to_N.

(** ** Errors, panics and the two result types *)

(** The values of Go's [error] that the code can meet. *)
Inductive error :=
  | ErrInvalidHeaderSize (n : nat) (* "invalid header size: n bytes. Expected 12" *)
  | ErrClosed                      (* os.ErrClosed: the file is already closed *)
  | ErrEOF                         (* io.EOF: ReadAt met the end of the file *)
  | ErrNegativeOffset              (* ReadAt with a negative offset *)
  | ErrFileTooLarge                (* EFBIG: the file would outgrow an int64 offset *)
  | ErrNotExist                    (* fs.ErrNotExist *)
  | ErrExist.                      (* fs.ErrExist *)

Inductive panic :=
  | PanicError (e : error)         (* panic(err) *)
  | PanicBounds                    (* runtime error: index or slice bounds out of range *)
  | PanicShortWrite                (* panic("written != datalen") *)
  | PanicImplementMe.              (* panic("implement me") *)

(** A [(value, error)] pair of results. *)
Inductive result (A : Type) :=
  | Ok (a : A)
  | Err (e : error).
Arguments Ok {A} a.
Arguments Err {A} e.

(** A computation that returns or panics. *)
Inductive outcome (A : Type) :=
  | Ret (a : A)
  | Panic (p : panic).
Arguments Ret {A} a.
Arguments Panic {A} p.

#[global] Instance outcome_ret : MRet outcome := λ A a, Ret a.
#[global] Instance outcome_bind : MBind outcome := λ A B f m,
  match m with
  | Ret a => f a
  | Panic p => Panic p
  end.

(** ** Slices *)

Definition len (l : list byte) : Z := Z.of_nat (length l).

(** [make([]byte, n)]. *)
Definition make (n : Z) : list byte := replicate (Z.to_nat n) x00.

(** [b[lo:hi]]; with [cap(b) = len(b)] the bounds are [0 <= lo <= hi <= len(b)]. *)
Definition slice (b : list byte) (lo hi : Z) : outcome (list byte) :=
  if decide (0 <= lo ∧ lo <= hi ∧ hi <= len b)
  then Ret (take (Z.to_nat (hi - lo)) (drop (Z.to_nat lo) b))
  else Panic PanicBounds.

(** [b[lo:]]. *)
Definition slice_from (b : list byte) (lo : Z) : outcome (list byte) :=
  slice b lo (len b).

(** Storing the bytes [bs] into [b[off], b[off+1], ...]: every index must
    be in range, as the bounds check that precedes the stores demands. *)
Definition write_at (b : list byte) (off : Z) (bs : list byte) : outcome (list byte) :=
  if decide (0 <= off ∧ off + len bs <= len b)
  then Ret (take (Z.to_nat off) b ++ bs ++ drop (Z.to_nat off + length bs) b)
  else Panic PanicBounds.

(** ** encoding/binary, little endian *)

Definition le_bytes (v : Z) : list byte :=
  [z2b v; z2b (Z.shiftr v 8); z2b (Z.shiftr v 16); z2b (Z.shiftr v 24)].

(** [binary.LittleEndian.PutUint32(b[off:], v)]. *)
Definition PutUint32 (b : list byte) (off : Z) (v : Z) : outcome (list byte) :=
  write_at b off (le_bytes v).

(** [binary.LittleEndian.Uint32(b)]. *)
Definition Uint32 (b : list byte) : outcome Z :=
  match b with
  | b0 :: b1 :: b2 :: b3 :: _ =>
      Ret (Z.lor (Z.lor (Z.lor (b2z b0) (Z.shiftl (b2z b1) 8))
                        (Z.shiftl (b2z b2) 16))
                 (Z.shiftl (b2z b3) 24))
  | _ => Panic PanicBounds
  end.

(** ** header.go *)

Record header := mkHeader {
  timestamp : Z;  (* uint32 *)
  keySize : Z;    (* uint32 *)
  valueSize : Z   (* uint32 *)
}.

Definition WriteBytes (h : header) (buf : list byte) : outcome (list byte) :=
  buf ← PutUint32 buf 0 (timestamp h);
  buf ← PutUint32 buf 4 (keySize h);
  PutUint32 buf 8 (valueSize h).

(** [int] is 64 bits wide: the sum of three values below [2^32] does not wrap. *)
Definition KeyLen (h : header) : Z := 12 + keySize h + valueSize h.

Definition headerFromBytes (buf : list byte) : outcome (result header) :=
  if decide (length buf ≠ 12%nat)
  then Ret (Err (ErrInvalidHeaderSize (length buf)))
  else
    t ← slice buf 0 4 ≫= Uint32;
    k ← slice buf 4 8 ≫= Uint32;
    v ← slice buf 8 12 ≫= Uint32;
    Ret (Ok {| timestamp := t; keySize := k; valueSize := v |}).

(** The twelve bytes of a header on disk. *)
Definition header_bytes (h : header) : list byte :=
  le_bytes (timestamp h) ++ le_bytes (keySize h) ++ le_bytes (valueSize h).

(** ** unicode/utf8 *)

Module utf8.

Definition RuneError : Z := 0xFFFD.
Definition MaxRune : Z := 0x10FFFF.
Definition surrogateMin : Z := 0xD800.
Definition surrogateMax : Z := 0xDFFF.

Definition tx : Z := 0x80.
Definition t2 : Z := 0xC0.
Definition t3 : Z := 0xE0.
Definition t4 : Z := 0xF0.
Definition maskx : Z := 0x3F.
Definition mask2 : Z := 0x1F.
Definition mask3 : Z := 0x0F.
Definition mask4 : Z := 0x07.
Definition rune1Max : Z := 0x7F.
Definition rune2Max : Z := 0x7FF.
Definition rune3Max : Z := 0xFFFF.
Definition locb : Z := 0x80.
Definition hicb : Z := 0xBF.

(** The information byte of a first byte: low bits the size of the
    sequence, high bits the index into [acceptRanges]. *)
Definition xx : Z := 0xF1.
Definition as_ : Z := 0xF0.
Definition s1 : Z := 0x02.
Definition s2 : Z := 0x13.
Definition s3 : Z := 0x03.
Definition s4 : Z := 0x23.
Definition s5 : Z := 0x34.
Definition s6 : Z := 0x04.
Definition s7 : Z := 0x44.

(** The table [first], by ranges of its index. *)
Definition first (c : Z) : Z :=
  if c <? 0x80 then as_
  else if c <? 0xC2 then xx
  else if c <? 0xE0 then s1
  else if c =? 0xE0 then s2
  else if c <? 0xED then s3
  else if c =? 0xED then s4
  else if c <? 0xF0 then s3
  else if c =? 0xF0 then s5
  else if c <? 0xF4 then s6
  else if c =? 0xF4 then s7
  else xx.

(** The table [acceptRanges]: the bounds of the second byte. *)
Definition acceptRanges (i : Z) : Z * Z :=
  if i =? 0 then (locb, hicb)
  else if i =? 1 then (0xA0, hicb)
  else if i =? 2 then (locb, 0x9F)
  else if i =? 3 then (0x90, hicb)
  else if i =? 4 then (locb, 0x8F)
  else (0, 0).

(** The runes that two, three and four bytes spell. *)
Definition rune2 (b0 b1 : byte) : Z :=
  Z.lor (Z.shiftl (Z.land (b2z b0) mask2) 6) (Z.land (b2z b1) maskx).

Definition rune3 (b0 b1 b2 : byte) : Z :=
  Z.lor (Z.lor (Z.shiftl (Z.land (b2z b0) mask3) 12)
               (Z.shiftl (Z.land (b2z b1) maskx) 6))
        (Z.land (b2z b2) maskx).

Definition rune4 (b0 b1 b2 b3 : byte) : Z :=
  Z.lor (Z.lor (Z.lor (Z.shiftl (Z.land (b2z b0) mask4) 18)
                      (Z.shiftl (Z.land (b2z b1) maskx) 12))
               (Z.shiftl (Z.land (b2z b2) maskx) 6))
        (Z.land (b2z b3) maskx).

(** [utf8.DecodeRuneInString]: the rune at the head of [s] and its width
    in bytes. This is what a [range] loop over a string does at every
    position. *)
Definition DecodeRuneInString (s : list byte) : Z * nat :=
  match s with
  | [] => (RuneError, 0%nat)
  | b0 :: t0 =>
    let x := first (b2z b0) in
    if as_ <=? x then ((if x =? as_ then b2z b0 else RuneError), 1%nat)
    else
      let sz := Z.land x 7 in
      let '(lo, hi) := acceptRanges (Z.shiftr x 4) in
      if len s <? sz then (RuneError, 1%nat)
      else
        match t0 with
        | [] => (RuneError, 1%nat)
        | b1 :: t1 =>
          if (b2z b1 <? lo) || (hi <? b2z b1) then (RuneError, 1%nat)
          else if sz <=? 2 then (rune2 b0 b1, 2%nat)
          else
            match t1 with
            | [] => (RuneError, 1%nat)
            | b2 :: t2 =>
              if (b2z b2 <? locb) || (hicb <? b2z b2) then (RuneError, 1%nat)
              else if sz <=? 3 then (rune3 b0 b1 b2, 3%nat)
              else
                match t2 with
                | [] => (RuneError, 1%nat)
                | b3 :: _ =>
                  if (b2z b3 <? locb) || (hicb <? b2z b3) then (RuneError, 1%nat)
                  else (rune4 b0 b1 b2 b3, 4%nat)
                end
            end
        end
  end.

(** The bytes that [utf8.EncodeRune] stores for the rune [r]. *)
Definition rune_bytes (r : Z) : list byte :=
  let i := uint32 r in
  if i <=? rune1Max then [z2b r]
  else if i <=? rune2Max
  then [z2b (Z.lor t2 (b2z (z2b (Z.shiftr r 6))));
        z2b (Z.lor tx (Z.land (b2z (z2b r)) maskx))]
  else if (i <? surrogateMin) || ((surrogateMax <? i) && (i <=? rune3Max))
  then [z2b (Z.lor t3 (b2z (z2b (Z.shiftr r 12))));
        z2b (Z.lor tx (Z.land (b2z (z2b (Z.shiftr r 6))) maskx));
        z2b (Z.lor tx (Z.land (b2z (z2b r)) maskx))]
  else if (rune3Max <? i) && (i <=? MaxRune)
  then [z2b (Z.lor t4 (b2z (z2b (Z.shiftr r 18))));
        z2b (Z.lor tx (Z.land (b2z (z2b (Z.shiftr r 12))) maskx));
        z2b (Z.lor tx (Z.land (b2z (z2b (Z.shiftr r 6))) maskx));
        z2b (Z.lor tx (Z.land (b2z (z2b r)) maskx))]
  else [xef; xbf; xbd].

(** [utf8.EncodeRune(p[off:], r)]: the bounds check comes before the
    first store, so a short buffer panics and is left as it was. *)
Definition EncodeRune (p : list byte) (off : Z) (r : Z) : outcome (list byte) :=
  write_at p off (rune_bytes r).

(** Well-formed UTF-8 byte sequences (Unicode, table 3-7), which is what
    [utf8.ValidString] accepts. *)
Definition cont (b : byte) : bool := (0x80 <=? b2z b) && (b2z b <=? 0xBF).

Definition seq1 (b0 : byte) : bool := b2z b0 <=? 0x7F.

Definition seq2 (b0 b1 : byte) : bool :=
  (0xC2 <=? b2z b0) && (b2z b0 <=? 0xDF) && cont b1.

Definition seq3 (b0 b1 b2 : byte) : bool :=
  (((b2z b0 =? 0xE0) && (0xA0 <=? b2z b1) && (b2z b1 <=? 0xBF))
   || ((0xE1 <=? b2z b0) && (b2z b0 <=? 0xEC) && cont b1)
   || ((b2z b0 =? 0xED) && (0x80 <=? b2z b1) && (b2z b1 <=? 0x9F))
   || ((0xEE <=? b2z b0) && (b2z b0 <=? 0xEF) && cont b1))
  && cont b2.

Definition seq4 (b0 b1 b2 b3 : byte) : bool :=
  (((b2z b0 =? 0xF0) && (0x90 <=? b2z b1) && (b2z b1 <=? 0xBF))
   || ((0xF1 <=? b2z b0) && (b2z b0 <=? 0xF3) && cont b1)
   || ((b2z b0 =? 0xF4) && (0x80 <=? b2z b1) && (b2z b1 <=? 0x8F)))
  && cont b2 && cont b3.

Inductive Valid : list byte → Prop :=
  | Valid_nil : Valid []
  | Valid_1 b0 s : seq1 b0 = true → Valid s → Valid (b0 :: s)
  | Valid_2 b0 b1 s : seq2 b0 b1 = true → Valid s → Valid (b0 :: b1 :: s)
  | Valid_3 b0 b1 b2 s :
      seq3 b0 b1 b2 = true → Valid s → Valid (b0 :: b1 :: b2 :: s)
  | Valid_4 b0 b1 b2 b3 s :
      seq4 b0 b1 b2 b3 = true → Valid s → Valid (b0 :: b1 :: b2 :: b3 :: s).

End utf8.

(** ** The [range] loop over a string *)

(** [for i, val := range s]: the pairs of a byte position and the rune
    decoded there, from position [i] on; [fuel] bounds the number of
    iterations and [length s] is always enough. *)
Fixpoint range_from (fuel : nat) (i : Z) (s : list byte) : list (Z * Z) :=
  match fuel with
  | O => []
  | S fuel =>
    match s with
    | [] => []
    | _ :: _ =>
      let '(r, w) := utf8.DecodeRuneInString s in
      (i, r) :: range_from fuel (i + Z.of_nat w) (drop w s)
    end
  end.

Definition range_string (s : list byte) : list (Z * Z) :=
  range_from (length s) 0 s.

(** Running a loop body over the pairs of a [range], threading the buffer. *)
Fixpoint for_each {A B} (body : A → B → outcome A) (l : list B) (a : A) : outcome A :=
  match l with
  | [] => Ret a
  | x :: l => a ← body a x; for_each body l a
  end.

(** ** The format file *)

Definition headerSize : Z := 12.

Record keyEntry := mkKeyEntry {
  fileId : Z;          (* uint, never set *)
  ke_valueSize : Z;    (* uint *)
  valuePos : Z;        (* int64 *)
  ke_timestamp : Z     (* uint32 *)
}.

Definition NewKeyEntry (timestamp position totalSize : Z) : outcome keyEntry :=
  Panic PanicImplementMe.

Definition encodeHeader (timestamp keySize valueSize : Z) : outcome (list byte) :=
  WriteBytes (mkHeader timestamp keySize valueSize) (make 12).

Definition decodeHeader (hdr : list byte) : outcome (Z * Z * Z) :=
  r ← headerFromBytes hdr;
  match r with
  | Err e => Panic (PanicError e)
  | Ok h => Ret (timestamp h, keySize h, valueSize h)
  end.

Definition encodeKV (timestamp : Z) (key value : list byte) : outcome (Z * list byte) :=
  let h := {| timestamp := timestamp;
              keySize := uint32 (len key);
              valueSize := uint32 (len value) |} in
  let buf := make (KeyLen h) in
  (* Write Header *)
  buf ← WriteBytes h buf;
  (* Write Key *)
  buf ← for_each (λ buf '(i, val), utf8.EncodeRune buf (12 + i) val)
                 (range_string key) buf;
  (* Write value *)
  buf ← for_each (λ buf '(i, val), utf8.EncodeRune buf (12 + keySize h + i) val)
                 (range_string value) buf;
  Ret (len buf, buf).

(** [12+header.keySize] is computed on [uint32] and wraps. *)
Definition decodeKV (data : list byte) : outcome (Z * list byte * list byte) :=
  hb ← slice data 0 12;
  r ← headerFromBytes hb;
  match r with
  | Err e => Panic (PanicError e)
  | Ok h =>
    k ← slice data 12 (uint32 (12 + keySize h));
    v ← slice_from data (uint32 (12 + keySize h));
    Ret (timestamp h, k, v)
  end.

(** ** The operating system: files and the clock *)

(** The state that the store works on: the contents of the files by name,
    the open files by descriptor, the next free descriptor, and the
    package-level variable [keyDir], which is one map for the whole
    process. *)
Record World := mkWorld {
  disk : gmap (list byte) (list byte);
  open_files : gmap nat (list byte);
  next_fd : nat;
  keyDir : gmap (list byte) keyEntry
}.

(** A process that has just started on the given disk:
    [var keyDir map[string]keyEntry = map[string]keyEntry{}]. *)
Definition boot (files : gmap (list byte) (list byte)) : World :=
  mkWorld files ∅ 0 ∅.

(** The process ends and a new one starts on the same disk. *)
Definition restart (w : World) : World := boot (disk w).

Definition with_disk (w : World) (files : gmap (list byte) (list byte)) : World :=
  mkWorld files (open_files w) (next_fd w) (keyDir w).

Definition with_keyDir (w : World) (m : gmap (list byte) keyEntry) : World :=
  mkWorld (disk w) (open_files w) (next_fd w) m.

(** [errors.Is(err, target)] on the errors of the model. *)
Definition errors_Is (err target : error) : bool :=
  match err, target with
  | ErrExist, ErrExist => true
  | ErrNotExist, ErrNotExist => true
  | ErrClosed, ErrClosed => true
  | ErrEOF, ErrEOF => true
  | _, _ => false
  end.

(** [os.Stat(fileName)]: the size of the file, or [fs.ErrNotExist]. *)
Definition Stat (fileName : list byte) (w : World) : result Z :=
  match disk w !! fileName with
  | Some c => Ok (len c)
  | None => Err ErrNotExist
  end.

(** [os.OpenFile(fileName, os.O_RDWR|os.O_CREATE|os.O_APPEND, 0644)]: the
    file is created empty when it is absent, and is never truncated. *)
Definition OpenFile (fileName : list byte) (w : World) : result nat * World :=
  let files :=
    match disk w !! fileName with
    | Some _ => disk w
    | None => <[fileName := []]> (disk w)
    end in
  (Ok (next_fd w),
   mkWorld files (<[next_fd w := fileName]> (open_files w)) (S (next_fd w)) (keyDir w)).

(** [f.Write(data)] on a file opened with [O_APPEND]: all of [data] goes to
    the end of the file, or the call fails and writes nothing. *)
Definition Write (fd : nat) (data : list byte) (w : World) : result Z * World :=
  match open_files w !! fd with
  | None => (Err ErrClosed, w)
  | Some name =>
    match disk w !! name with
    | None => (Err ErrNotExist, w)
    | Some c =>
      if decide (len c + len data <= maxInt64)
      then (Ok (len data), with_disk w (<[name := c ++ data]> (disk w)))
      else (Err ErrFileTooLarge, w)
    end
  end.

(** [f.ReadAt(buf, off)] with [len(buf) = n]: the [n] bytes at [off], or an
    error when fewer are there. An empty buffer is filled without a read. *)
Definition ReadAt (fd : nat) (n : Z) (off : Z) (w : World) : result (list byte) :=
  if decide (off < 0) then Err ErrNegativeOffset
  else if decide (n <= 0) then Ok []
  else
    match open_files w !! fd with
    | None => Err ErrClosed
    | Some name =>
      match disk w !! name with
      | None => Err ErrNotExist
      | Some c =>
        if decide (off + n <= len c)
        then Ok (take (Z.to_nat n) (drop (Z.to_nat off) c))
        else Err ErrEOF
      end
    end.

(** [f.Close()]. *)
Definition File_Close (fd : nat) (w : World) : result unit * World :=
  match open_files w !! fd with
  | None => (Err ErrClosed, w)
  | Some _ => (Ok tt, mkWorld (disk w) (delete fd (open_files w)) (next_fd w) (keyDir w))
  end.

(** ** The disk store *)

Record DiskStore := mkDiskStore {
  f : nat;      (* *os.File *)
  curPos : Z    (* int64 *)
}.

Definition isFileExists (fileName : list byte) (w : World) : bool :=
  match Stat fileName w with
  | Ok _ => true                          (* err == nil *)
  | Err err => errors_Is err ErrExist
  end.

Definition NewDiskStore (fileName : list byte) (w : World) : result DiskStore * World :=
  let open (curPos : Z) :=
    match OpenFile fileName w with
    | (Err err, w) => (Err err, w)
    | (Ok f, w) =>
      (* os.Stat(fileName): the result is dropped *)
      (Ok {| f := f; curPos := curPos |}, w)
    end in
  match Stat fileName w with
  | Err err =>
    if errors_Is err ErrExist then (Err err, w)
    else open 0                    (* fi == nil: curPos keeps its zero value *)
  | Ok size => open size           (* curPos = fi.Size() *)
  end.

(** What [Get] does with the entry that the index gave it: read the bytes
    of the record and decode them. *)
Definition read_entry (d : DiskStore) (keyInfo : keyEntry) (w : World)
  : outcome (list byte) :=
  match ReadAt (f d) (ke_valueSize keyInfo) (valuePos keyInfo) w with
  | Err err => Panic (PanicError err)
  | Ok buf =>
    '(_, _, val) ← decodeKV buf;
    Ret val
  end.

(** [d.Get(key)]; the world is only read. *)
Definition Get (d : DiskStore) (key : list byte) (w : World) : outcome (list byte) :=
  match keyDir w !! key with
  | None => Ret []
  | Some keyInfo => read_entry d keyInfo w
  end.

(** The entry that [Set] puts into [keyDir] for a record of [dataLen] bytes
    written when the cursor was [pos]. *)
Definition entry_of (timestamp pos dataLen : Z) : keyEntry :=
  {| fileId := 0;
     ke_timestamp := uint32 timestamp;
     ke_valueSize := dataLen;
     valuePos := pos |}.

(** [d.Set(key, value)]; [now] is what [time.Now().Unix()] returns. The
    store is updated through the pointer [d], so the new store comes back
    with the new world. *)
Definition Set_ (d : DiskStore) (key value : list byte) (now : Z) (w : World)
  : outcome (DiskStore * World) :=
  let timestamp := now in
  '(dataLen, data) ← encodeKV (uint32 timestamp) key value;
  match Write (f d) data w with
  | (Err err, _) => Panic (PanicError err)
  | (Ok written, w) =>
    if decide (written ≠ dataLen) then Panic PanicShortWrite
    else
      let w := with_keyDir w (<[key := entry_of timestamp (curPos d) dataLen]>
                                (keyDir w)) in
      Ret ({| f := f d; curPos := int64 (curPos d + dataLen) |}, w)
  end.

Definition Close (d : DiskStore) (w : World) : outcome (bool * World) :=
  match File_Close (f d) w with
  | (Err err, _) => Panic (PanicError err)
  | (Ok _, w) => Ret (true, w)
  end.

(** An open store in good order: its descriptor is open on a file of the
    disk and its cursor is the length of that file. *)
Definition store_ok (w : World) (d : DiskStore) : Prop :=
  ∃ name c, open_files w !! f d = Some name ∧ disk w !! name = Some c ∧
            curPos d = len c.

(** Whether a computation returns. *)
Definition returns {A} (m : outcome A) : bool :=
  match m with
  | Ret _ => true
  | Panic _ => false
  end.

(** Encoding and then decoding. *)
Definition roundtrip (timestamp : Z) (key value : list byte)
  : outcome (Z * list byte * list byte) :=
  '(_, buf) ← encodeKV timestamp key value;
  decodeKV buf.

(** ** Inputs of the examples *)

Module Ex.

Definition db : list byte := ["b"; "o"; "o"; "k"; "s"; "."; "d"; "b"]%byte.
Definition db2 : list byte := ["p"; "l"; "a"; "y"; "s"; "."; "d"; "b"]%byte.
Definition othello : list byte := ["o"; "t"; "h"; "e"; "l"; "l"; "o"]%byte.
Definition shakespeare : list byte :=
  ["s"; "h"; "a"; "k"; "e"; "s"; "p"; "e"; "a"; "r"; "e"]%byte.
Definition marlowe : list byte := ["m"; "a"; "r"; "l"; "o"; "w"; "e"]%byte.
Definition missing : list byte := ["m"; "i"; "s"; "s"; "i"; "n"; "g"]%byte.

(** "né" with its two-byte e acute. *)
Definition ne : list byte := ["n"; xc3; xa9]%byte.

(** Three bytes that are not UTF-8: 0xFF is no first byte. *)
Definition not_utf8 : list byte := [xff; "A"; "B"]%byte.

(** A key of 4 GiB, one byte more than a length field can say. *)
Definition key_4GiB : list byte := replicate (Z.to_nat (2 ^ 32)) "a"%byte.

(** A key of 4 GiB less twelve bytes: its length fits the field. *)
Definition key_wrap : list byte := replicate (Z.to_nat (2 ^ 32 - 12)) "a"%byte.

(** A header that declares a key of three bytes and a value of five, and
    only the key and one byte of the value behind it. *)
Definition truncated : list byte :=
  [x01; x00; x00; x00; x03; x00; x00; x00; x05; x00; x00; x00;
   "k"; "e"; "y"; "v"]%byte.

(** Thirteen zero bytes: a header of two empty fields and one byte more. *)
Definition thirteen : list byte := replicate 13 x00.

Definition now : Z := 1700000000.

(** A fresh process on an empty disk and its first store. *)
Definition w0 : World := (NewDiskStore db (boot ∅)).2.
Definition d0 : DiskStore := {| f := 0; curPos := 0 |}.

(** [store, _ := NewDiskStore(name)], for a caller that goes on only with a
    store. *)
Definition must_open (name : list byte) (w : World) : outcome (DiskStore * World) :=
  match NewDiskStore name w with
  | (Ok d, w) => Ret (d, w)
  | (Err err, _) => Panic (PanicError err)
  end.

End Ex.

(** ** Callers of the store and what is said about it

    The definitions below are not functions of the source: they are the
    programs and the predicates that the properties of the last part are
    stated with. *)

(** A caller that sets one pair after the other; every pair comes with
    what the clock says at its call. *)
Fixpoint set_all (d : DiskStore) (ops : list (list byte * list byte * Z)) (w : World)
  : outcome (DiskStore * World) :=
  match ops with
  | [] => Ret (d, w)
  | (key, value, now) :: ops =>
    '(d, w) ← Set_ d key value now w;
    set_all d ops w
  end.

(** The map from keys to values that a list of pairs, set in order, makes
    of the map [m]. *)
Definition assign (ops : list (list byte * list byte * Z))
    (m : gmap (list byte) (list byte)) : gmap (list byte) (list byte) :=
  foldl (λ m '(key, value, _), <[key := value]> m) m ops.

(** The record of the format comment: the three fields of the header, the
    key and the value. *)
Definition record (timestamp : Z) (key value : list byte) : list byte :=
  header_bytes (mkHeader timestamp (len key) (len value)) ++ key ++ value.

(** A byte that begins no rune: a continuation byte, 0xC0, 0xC1, or 0xF5
    and above. *)
Definition stray (b : byte) : bool :=
  ((0x80 <=? b2z b) && (b2z b <? 0xC2)) || (0xF5 <=? b2z b).

(** The bytes that a list of pairs, set in order, appends to the file. *)
Definition log (ops : list (list byte * list byte * Z)) : list byte :=
  concat ((λ '(key, value, now), record (uint32 now) key value) <$> ops).

(** An entry of the index that is in step with the file [c]: it points at
    bytes of the file that decode to its own timestamp and key. *)
Definition entry_ok (c : list byte) (key : list byte) (e : keyEntry) : Prop :=
  0 <= valuePos e ∧ 0 < ke_valueSize e ∧ valuePos e + ke_valueSize e <= len c ∧
  ∃ value,
    decodeKV (take (Z.to_nat (ke_valueSize e)) (drop (Z.to_nat (valuePos e)) c))
    = Ret (ke_timestamp e, key, value).

(** A store in good order whose file every entry of the index is in step
    with. *)
Definition index_ok (w : World) (d : DiskStore) : Prop :=
  ∃ name c, open_files w !! f d = Some name ∧ disk w !! name = Some c ∧
            curPos d = len c ∧
            ∀ key e, keyDir w !! key = Some e → entry_ok c key e.

(** Three calls of [Set] on two keys, the first key twice. *)
Definition plays : list (list byte * list byte * Z) :=
  [(Ex.othello, Ex.shakespeare, Ex.now); (Ex.ne, Ex.marlowe, Ex.now);
   (Ex.othello, Ex.marlowe, Ex.now + 1)].

(** A second store on the file of the first. *)
Definition w00 : World := (NewDiskStore Ex.db Ex.w0).2.
Definition d00 : DiskStore := {| f := 1; curPos := 0 |}.

(** * Properties

    ** Machine integers and bytes *)

Lemma uint32_range x : 0 <= uint32 x < 2 ^ 32.
Proof. unfold uint32. apply Z.mod_pos_bound. lia. Qed.

Lemma uint32_small x : 0 <= x < 2 ^ 32 -> uint32 x = x.
Proof. intros. unfold uint32. by apply Z.mod_small. Qed.

Lemma int64_small x : - 2 ^ 63 <= x < 2 ^ 63 -> int64 x = x.
Proof. intros. unfold int64. rewrite Z.mod_small; lia. Qed.

Lemma b2z_range b : 0 <= b2z b < 256.
Proof.
  unfold b2z. pose proof (Byte.to_N_bounded b) as H. lia.
Qed.

Lemma z2b_b2z b : z2b (b2z b) = b.
Proof.
  unfold z2b. pose proof (b2z_range b).
  rewrite Z.mod_small by lia. unfold b2z. rewrite N2Z.id.
  by rewrite Byte.of_to_N.
Qed.

Lemma b2z_z2b x : b2z (z2b x) = x mod 256.
Proof.
  unfold z2b, b2z.
  assert (Hr : 0 <= x mod 256 < 256) by (apply Z.mod_pos_bound; lia).
  destruct (Byte.of_N (Z.to_N (x mod 256))) as [b|] eqn:E.
  - apply Byte.to_of_N in E. rewrite E. lia.
  - apply Byte.of_N_None_iff in E. lia.
Qed.

Lemma b2z_inj a b : b2z a = b2z b -> a = b.
Proof. intros H. rewrite <- (z2b_b2z a), <- (z2b_b2z b). by rewrite H. Qed.

Lemma bind_Ret {A B} (f : A → outcome B) (m : outcome A) (b : B) :
  m ≫= f = Ret b → ∃ a, m = Ret a ∧ f a = Ret b.
Proof. destruct m as [a|p]; simpl; [eauto | discriminate]. Qed.


Lemma testbit_shiftr_sub a k n :
  0 <= k → Z.testbit (Z.shiftr a k) (n - k) = (k <=? n) && Z.testbit a n.
Proof.
  intros Hk. destruct (Z.leb_spec k n); simpl.
  - rewrite Z.shiftr_spec by lia. f_equal. lia.
  - apply Z.testbit_neg_r. lia.
Qed.

(** The four bytes of a little-endian word put together again. *)
Lemma le32_join v :
  Z.lor (Z.lor (Z.lor (v mod 256) (Z.shiftl (Z.shiftr v 8 mod 256) 8))
               (Z.shiftl (Z.shiftr v 16 mod 256) 16))
        (Z.shiftl (Z.shiftr v 24 mod 256) 24) = uint32 v.
Proof.
  unfold uint32. change 256 with (2 ^ 8). apply Z.bits_inj'. intros n Hn.
  rewrite !Z.lor_spec, !Z.shiftl_spec, !Z.testbit_mod_pow2 by lia.
  rewrite !testbit_shiftr_sub by lia.
  destruct (Z.testbit v n); rewrite ?Bool.andb_false_r; [|done].
  rewrite !Bool.andb_true_r. lia.
Qed.

(** ** Bit operations as arithmetic *)

Ltac dlia := Z.div_mod_to_equations; lia.

Lemma lor_disjoint a b n :
  0 <= n → a mod 2 ^ n = 0 → 0 <= b < 2 ^ n → Z.lor a b = a + b.
Proof.
  intros Hn Ha Hb. rewrite <- Z.lxor_lor, Z.add_nocarry_lxor; trivial;
    apply Z.bits_inj'; intros i Hi; rewrite Z.land_spec, Z.bits_0;
    destruct (Z.ltb_spec i n).
  - rewrite <- (Z.mod_pow2_bits_low a n i), Ha, Z.bits_0 by lia. done.
  - rewrite <- (Z.mod_small b (2 ^ n)), Z.mod_pow2_bits_high by lia.
    apply Bool.andb_false_r.
  - rewrite <- (Z.mod_pow2_bits_low a n i), Ha, Z.bits_0 by lia. done.
  - rewrite <- (Z.mod_small b (2 ^ n)), Z.mod_pow2_bits_high by lia.
    apply Bool.andb_false_r.
Qed.

Lemma land_mask a n : 0 <= n → Z.land a (2 ^ n - 1) = a mod 2 ^ n.
Proof.
  intros. rewrite <- Z.land_ones by lia.
  by rewrite Z.ones_equiv, <- Z.sub_1_r.
Qed.

Lemma z2b_eq x b : x = b2z b → z2b x = b.
Proof. intros ->. apply z2b_b2z. Qed.

Ltac pow_norm :=
  change (2 ^ 3) with 8 in *; change (2 ^ 4) with 16 in *;
  change (2 ^ 5) with 32 in *; change (2 ^ 6) with 64 in *;
  change (2 ^ 12) with 4096 in *; change (2 ^ 18) with 262144 in *.

(** Masks become remainders, shifts become products and quotients. *)
Ltac arith_bits :=
  unfold utf8.tx, utf8.t2, utf8.t3, utf8.t4,
    utf8.maskx, utf8.mask2, utf8.mask3, utf8.mask4 in *;
  change 0x3F with (2 ^ 6 - 1); change 0x1F with (2 ^ 5 - 1);
  change 0x0F with (2 ^ 4 - 1); change 0x07 with (2 ^ 3 - 1);
  rewrite ?land_mask, ?Z.shiftl_mul_pow2, ?Z.shiftr_div_pow2 by lia;
  pow_norm.

(** Some [Z.lor] of the goal whose operands share no bit below [2^n]
    becomes a sum. *)
Ltac lor_add n :=
  match goal with
  | |- context [Z.lor ?a ?b] => rewrite (lor_disjoint a b n) by (pow_norm; dlia)
  end; pow_norm.

(** Settle the test of some conditional of the goal by arithmetic. *)
Ltac if_by tac :=
  match goal with
  | |- context [if ?c then _ else _] =>
      first [ replace c with true by (symmetry; tac)
            | replace c with false by (symmetry; tac) ]
  end.
Ltac if_lia := if_by lia.
Ltac if_dlia := if_by dlia.

(** ** unicode/utf8: encoding undoes decoding on well-formed sequences *)

Section utf8_facts.
Import utf8.

Lemma rune2_eq b0 b1 : rune2 b0 b1 = (b2z b0 mod 32) * 64 + b2z b1 mod 64.
Proof. unfold rune2. arith_bits. lor_add 6. dlia. Qed.

Lemma rune3_eq b0 b1 b2 :
  rune3 b0 b1 b2 = (b2z b0 mod 16) * 4096 + (b2z b1 mod 64) * 64 + b2z b2 mod 64.
Proof. unfold rune3. arith_bits. lor_add 12. lor_add 6. dlia. Qed.

Lemma rune4_eq b0 b1 b2 b3 :
  rune4 b0 b1 b2 b3 =
  (b2z b0 mod 8) * 262144 + (b2z b1 mod 64) * 4096 + (b2z b2 mod 64) * 64
  + b2z b3 mod 64.
Proof. unfold rune4. arith_bits. lor_add 18. lor_add 12. lor_add 6. dlia. Qed.

Lemma rune_bytes_error : rune_bytes RuneError = [xef; xbf; xbd].
Proof. reflexivity. Qed.

Lemma enc1 b0 : seq1 b0 = true → rune_bytes (b2z b0) = [b0].
Proof.
  unfold seq1, rune_bytes, rune1Max. intros H. pose proof (b2z_range b0).
  rewrite uint32_small by lia. replace (b2z b0 <=? 127) with true by lia.
  by rewrite z2b_b2z.
Qed.

Lemma enc2 b0 b1 : seq2 b0 b1 = true → rune_bytes (rune2 b0 b1) = [b0; b1].
Proof.
  unfold seq2, cont. intros H.
  pose proof (b2z_range b0). pose proof (b2z_range b1).
  unfold rune_bytes. rewrite rune2_eq, !b2z_z2b.
  rewrite uint32_small by dlia.
  unfold rune1Max, rune2Max. repeat if_dlia.
  arith_bits. repeat lor_add 6.
  f_equal; [|f_equal]; apply z2b_eq; dlia.
Qed.

Lemma enc3 b0 b1 b2 :
  seq3 b0 b1 b2 = true → rune_bytes (rune3 b0 b1 b2) = [b0; b1; b2].
Proof.
  unfold seq3, cont. intros H.
  pose proof (b2z_range b0). pose proof (b2z_range b1). pose proof (b2z_range b2).
  unfold rune_bytes. rewrite rune3_eq, !b2z_z2b.
  rewrite uint32_small by dlia.
  unfold rune1Max, rune2Max, rune3Max, surrogateMin, surrogateMax.
  repeat if_dlia.
  arith_bits. repeat lor_add 6. lor_add 5.
  f_equal; [|f_equal; [|f_equal]]; apply z2b_eq; dlia.
Qed.

Lemma enc4 b0 b1 b2 b3 :
  seq4 b0 b1 b2 b3 = true → rune_bytes (rune4 b0 b1 b2 b3) = [b0; b1; b2; b3].
Proof.
  unfold seq4, cont. intros H.
  pose proof (b2z_range b0). pose proof (b2z_range b1). pose proof (b2z_range b2).
  pose proof (b2z_range b3).
  unfold rune_bytes. rewrite rune4_eq, !b2z_z2b.
  rewrite uint32_small by dlia.
  unfold rune1Max, rune2Max, rune3Max, surrogateMin, surrogateMax, MaxRune.
  repeat if_dlia.
  arith_bits. repeat lor_add 6. lor_add 4.
  f_equal; [|f_equal; [|f_equal; [|f_equal]]]; apply z2b_eq; dlia.
Qed.

(** The table [first] read by classes of first bytes. *)
Lemma first_cases c :
  0 <= c < 256 →
  first c =
    if c <? 0x80 then as_
    else if (0xC2 <=? c) && (c <=? 0xDF) then s1
    else if c =? 0xE0 then s2
    else if c =? 0xED then s4
    else if (0xE1 <=? c) && (c <=? 0xEF) then s3
    else if c =? 0xF0 then s5
    else if (0xF1 <=? c) && (c <=? 0xF3) then s6
    else if c =? 0xF4 then s7
    else xx.
Proof. intros. unfold first. repeat case_match; first [done | lia]. Qed.

Ltac eval_tables :=
  repeat match goal with
  | |- context [acceptRanges (?x ≫ 4)] =>
      let v := eval vm_compute in (acceptRanges (x ≫ 4)) in
      progress change (acceptRanges (x ≫ 4)) with v
  | |- context [Z.land ?x 7] =>
      let v := eval vm_compute in (Z.land x 7) in
      progress change (Z.land x 7) with v
  end; cbv beta iota.

Ltac decode_head b0 :=
  unfold seq1, seq2, seq3, seq4, cont in *; pose proof (b2z_range b0);
  unfold DecodeRuneInString; rewrite first_cases by done;
  unfold as_, xx, s1, s2, s3, s4, s5, s6, s7, locb, hicb, len; cbn [length];
  repeat if_lia; eval_tables; repeat if_lia.

Lemma dec1 b0 t : seq1 b0 = true → DecodeRuneInString (b0 :: t) = (b2z b0, 1%nat).
Proof. intros H. by decode_head b0. Qed.

Lemma dec2 b0 b1 t :
  seq2 b0 b1 = true → DecodeRuneInString (b0 :: b1 :: t) = (rune2 b0 b1, 2%nat).
Proof. intros H. by decode_head b0. Qed.

Lemma dec3 b0 b1 b2 t :
  seq3 b0 b1 b2 = true →
  DecodeRuneInString (b0 :: b1 :: b2 :: t) = (rune3 b0 b1 b2, 3%nat).
Proof.
  intros H.
  destruct (Z.eqb_spec (b2z b0) 0xE0), (Z.eqb_spec (b2z b0) 0xED);
    first [lia | by decode_head b0].
Qed.

Lemma dec4 b0 b1 b2 b3 t :
  seq4 b0 b1 b2 b3 = true →
  DecodeRuneInString (b0 :: b1 :: b2 :: b3 :: t) = (rune4 b0 b1 b2 b3, 4%nat).
Proof.
  intros H.
  destruct (Z.eqb_spec (b2z b0) 0xF0), (Z.eqb_spec (b2z b0) 0xF4);
    first [lia | by decode_head b0].
Qed.

Ltac split_decode :=
  repeat first
    [ if_lia
    | match goal with
      | |- context [match ?l with [] => _ | _ :: _ => _ end] =>
          is_var l; destruct l; cbn [length] in *
      end
    | match goal with
      | |- context [if ?c then _ else _] => destruct c eqn:?
      end ].

Ltac width_leaf :=
  cbn [fst snd length]; (split; [lia|]);
  first
    [ rewrite rune_bytes_error; simpl; lia
    | rewrite enc1 by (unfold seq1; lia); simpl; lia
    | rewrite enc2 by (unfold seq2, cont; lia); simpl; lia
    | rewrite enc3 by (unfold seq3, cont; lia); simpl; lia
    | rewrite enc4 by (unfold seq4, cont; lia); simpl; lia ].

(** Whatever the bytes, the decoded rune is not wider than the string, and
    its encoding is not shorter than what was decoded: an invalid byte
    counts for one and is written back as the three bytes of U+FFFD. *)
Lemma decode_width b0 t :
  let rw := DecodeRuneInString (b0 :: t) in
  (1 ≤ rw.2 ≤ S (length t))%nat ∧ (rw.2 ≤ length (rune_bytes rw.1))%nat.
Proof.
  pose proof (b2z_range b0) as Hb0. cbv zeta.
  unfold DecodeRuneInString. rewrite first_cases by done.
  unfold as_, xx, s1, s2, s3, s4, s5, s6, s7, locb, hicb, len.
  destruct (b2z b0 <? 128) eqn:E1; [split_decode; width_leaf|].
  destruct ((194 <=? b2z b0) && (b2z b0 <=? 223)) eqn:E2;
    [eval_tables; split_decode; width_leaf|].
  destruct (b2z b0 =? 224) eqn:E3; [eval_tables; split_decode; width_leaf|].
  destruct (b2z b0 =? 237) eqn:E4; [eval_tables; split_decode; width_leaf|].
  destruct ((225 <=? b2z b0) && (b2z b0 <=? 239)) eqn:E5;
    [eval_tables; split_decode; width_leaf|].
  destruct (b2z b0 =? 240) eqn:E6; [eval_tables; split_decode; width_leaf|].
  destruct ((241 <=? b2z b0) && (b2z b0 <=? 243)) eqn:E7;
    [eval_tables; split_decode; width_leaf|].
  destruct (b2z b0 =? 244) eqn:E8; [eval_tables; split_decode; width_leaf|].
  split_decode; width_leaf.
Qed.

End utf8_facts.

(** ** Slices and stores into them *)

Lemma len_app a b : len (a ++ b) = len a + len b.
Proof. unfold len. rewrite length_app. lia. Qed.

Lemma len_nonneg l : 0 <= len l.
Proof. unfold len. lia. Qed.

Lemma len_make n : 0 <= n → len (make n) = n.
Proof. intros. unfold len, make. rewrite length_replicate. lia. Qed.

Lemma write_at_app pre old post bs :
  length old = length bs →
  write_at (pre ++ old ++ post) (len pre) bs = Ret (pre ++ bs ++ post).
Proof.
  intros Hl. unfold write_at.
  rewrite decide_True by (rewrite !len_app; unfold len; lia).
  unfold len. rewrite Nat2Z.id, take_app_length. do 2 f_equal.
  rewrite <- Hl, app_assoc, drop_app_length'; [done|].
  by rewrite length_app.
Qed.

Lemma write_at_Ret b off bs b' :
  write_at b off bs = Ret b' →
  0 <= off ∧ off + len bs <= len b ∧
  b' = take (Z.to_nat off) b ++ bs ++ drop (Z.to_nat off + length bs) b.
Proof.
  unfold write_at. case_decide; [|done]. intros [= <-]. tauto.
Qed.

(** ** The header on disk *)

Lemma length_le_bytes v : length (le_bytes v) = 4%nat.
Proof. done. Qed.

Lemma length_header_bytes h : length (header_bytes h) = 12%nat.
Proof. done. Qed.

Lemma Uint32_le_bytes v rest : Uint32 (le_bytes v ++ rest) = Ret (uint32 v).
Proof.
  unfold Uint32, le_bytes. cbn [app]. rewrite !b2z_z2b. f_equal. apply le32_join.
Qed.

Ltac twelve buf H :=
  do 12 (destruct buf as [|? buf]; [unfold len in H; cbn [length] in H; lia|]).

Lemma WriteBytes_spec h buf :
  12 <= len buf → WriteBytes h buf = Ret (header_bytes h ++ drop 12 buf).
Proof.
  intros H. twelve buf H.
  unfold WriteBytes, PutUint32, write_at, header_bytes, le_bytes.
  rewrite decide_True; [|unfold len; cbn [length]; lia]. simpl.
  rewrite decide_True; [|unfold len; cbn [length]; lia]. simpl.
  rewrite decide_True; [|unfold len; cbn [length]; lia]. simpl.
  done.
Qed.

Lemma slice_take_drop b lo hi :
  0 <= lo → lo <= hi → hi <= len b →
  slice b lo hi = Ret (take (Z.to_nat (hi - lo)) (drop (Z.to_nat lo) b)).
Proof. intros. unfold slice. by rewrite decide_True. Qed.

Lemma headerFromBytes_header_bytes h :
  headerFromBytes (header_bytes h) =
  Ret (Ok {| timestamp := uint32 (timestamp h);
             keySize := uint32 (keySize h);
             valueSize := uint32 (valueSize h) |}).
Proof.
  unfold headerFromBytes. rewrite decide_False by (rewrite length_header_bytes; lia).
  rewrite !slice_take_drop by (unfold len; rewrite ?length_header_bytes; lia).
  unfold header_bytes. cbn [mbind outcome_bind].
  change (Z.to_nat (4 - 0)) with 4%nat. change (Z.to_nat 0) with 0%nat.
  change (Z.to_nat (8 - 4)) with 4%nat. change (Z.to_nat 4) with 4%nat.
  change (Z.to_nat (12 - 8)) with 4%nat. change (Z.to_nat 8) with 8%nat.
  cbn [drop take le_bytes app Uint32].
  rewrite !b2z_z2b, !le32_join. done.
Qed.

Lemma headerFromBytes_12 hb :
  length hb = 12%nat → ∃ h, headerFromBytes hb = Ret (Ok h).
Proof.
  intros H. do 13 (destruct hb as [|? hb]; try done).
  eexists. unfold headerFromBytes. cbn. done.
Qed.

(** ** The loops that copy the key and the value *)

Lemma write_step pre old1 old2 post bs :
  length old1 = length bs →
  write_at (pre ++ (old1 ++ old2) ++ post) (len pre) bs
  = Ret ((pre ++ bs) ++ old2 ++ post).
Proof.
  intros. rewrite <- !app_assoc. by apply write_at_app.
Qed.

(** On well-formed UTF-8 the loop copies the string over the bytes that
    were there. *)
Lemma loop_valid off s :
  utf8.Valid s →
  ∀ fuel i pre old post,
    (length s ≤ fuel)%nat → length old = length s → off + i = len pre →
    for_each (λ buf '(i, val), utf8.EncodeRune buf (off + i) val)
             (range_from fuel i s) (pre ++ old ++ post)
    = Ret (pre ++ s ++ post).
Proof.
  induction 1 as [|b0 s H1 Hv IH|b0 b1 s H2 Hv IH|b0 b1 b2 s H3 Hv IH
                  |b0 b1 b2 b3 s H4 Hv IH];
    intros fuel i pre old post Hf Ho Hi.
  - destruct old; [|done]. by destruct fuel.
  - destruct fuel as [|fuel]; [cbn in Hf; lia|].
    destruct old as [|o0 old]; [done|].
    cbn [range_from]. rewrite dec1 by done. cbn [for_each drop].
    unfold utf8.EncodeRune. rewrite enc1 by done. rewrite Hi.
    rewrite (write_step pre [o0] old post [b0] eq_refl
             : write_at (pre ++ (o0 :: old) ++ post) _ _ = _).
    cbn [mbind outcome_bind]. rewrite IH.
    + by rewrite <- app_assoc.
    + cbn in Hf. lia.
    + by injection Ho.
    + rewrite len_app. unfold len in *. cbn [length]. lia.
  - destruct fuel as [|fuel]; [cbn in Hf; lia|].
    destruct old as [|o0 [|o1 old]]; [done..|].
    cbn [range_from]. rewrite dec2 by done. cbn [for_each drop].
    unfold utf8.EncodeRune. rewrite enc2 by done. rewrite Hi.
    rewrite (write_step pre [o0; o1] old post [b0; b1] eq_refl
             : write_at (pre ++ (o0 :: o1 :: old) ++ post) _ _ = _).
    cbn [mbind outcome_bind]. rewrite IH.
    + by rewrite <- app_assoc.
    + cbn in Hf. lia.
    + by injection Ho.
    + rewrite len_app. unfold len in *. cbn [length]. lia.
  - destruct fuel as [|fuel]; [cbn in Hf; lia|].
    destruct old as [|o0 [|o1 [|o2 old]]]; [done..|].
    cbn [range_from]. rewrite dec3 by done. cbn [for_each drop].
    unfold utf8.EncodeRune. rewrite enc3 by done. rewrite Hi.
    rewrite (write_step pre [o0; o1; o2] old post [b0; b1; b2] eq_refl
             : write_at (pre ++ (o0 :: o1 :: o2 :: old) ++ post) _ _ = _).
    cbn [mbind outcome_bind]. rewrite IH.
    + by rewrite <- app_assoc.
    + cbn in Hf. lia.
    + by injection Ho.
    + rewrite len_app. unfold len in *. cbn [length]. lia.
  - destruct fuel as [|fuel]; [cbn in Hf; lia|].
    destruct old as [|o0 [|o1 [|o2 [|o3 old]]]]; [done..|].
    cbn [range_from]. rewrite dec4 by done. cbn [for_each drop].
    unfold utf8.EncodeRune. rewrite enc4 by done. rewrite Hi.
    rewrite (write_step pre [o0; o1; o2; o3] old post [b0; b1; b2; b3] eq_refl
             : write_at (pre ++ (o0 :: o1 :: o2 :: o3 :: old) ++ post) _ _ = _).
    cbn [mbind outcome_bind]. rewrite IH.
    + by rewrite <- app_assoc.
    + cbn in Hf. lia.
    + by injection Ho.
    + rewrite len_app. unfold len in *. cbn [length]. lia.
Qed.

(** Whatever the string, a loop that comes to its end has left the length
    of the buffer and the bytes before its first store as they were, and
    the buffer had room for the whole string. *)
Lemma loop_Ret off :
  ∀ fuel s i buf buf',
    (length s ≤ fuel)%nat → 0 <= off + i →
    for_each (λ buf '(i, val), utf8.EncodeRune buf (off + i) val)
             (range_from fuel i s) buf = Ret buf' →
    len buf' = len buf ∧
    take (Z.to_nat (off + i)) buf' = take (Z.to_nat (off + i)) buf ∧
    (s ≠ [] → off + i + len s <= len buf).
Proof.
  induction fuel as [|fuel IH]; intros s i buf buf' Hf Hi Hr.
  - destruct s; [|cbn in Hf; lia]. cbn in Hr. injection Hr as <-. done.
  - destruct s as [|b0 t]; [cbn in Hr; injection Hr as <-; done|].
    cbn [range_from] in Hr.
    pose proof (decode_width b0 t) as Hw. cbv zeta in Hw.
    destruct (utf8.DecodeRuneInString (b0 :: t)) as [r w] eqn:Hd.
    cbn [fst snd] in Hw. destruct Hw as [[Hw1 Hw2] Hw3].
    cbn [for_each] in Hr. apply bind_Ret in Hr as (buf1 & He & Hr).
    apply write_at_Ret in He as (_ & Hroom & ->).
    apply IH in Hr as (Hl & Ht & Hs);
      [|rewrite length_drop; cbn [length] in *; lia|lia].
    assert (Hlen : len (take (Z.to_nat (off + i)) buf ++ utf8.rune_bytes r ++
                        drop (Z.to_nat (off + i) + length (utf8.rune_bytes r)) buf)
                   = len buf).
    { unfold len in *. rewrite !length_app, length_take, length_drop. lia. }
    split; [lia|]. split.
    + apply (f_equal (take (Z.to_nat (off + i)))) in Ht.
      rewrite !take_take in Ht.
      rewrite !Nat.min_l in Ht by lia.
      rewrite Ht. apply take_app_length'.
      rewrite length_take. unfold len in *. lia.
    + intros _. destruct (drop w (b0 :: t)) as [|x d] eqn:Hdrop.
      * apply (f_equal length) in Hdrop. rewrite length_drop in Hdrop.
        unfold len in *. cbn [length] in *. lia.
      * specialize (Hs ltac:(done)). rewrite Hlen in Hs.
        apply (f_equal length) in Hdrop. rewrite length_drop in Hdrop.
        unfold len in *. cbn [length] in *. lia.
Qed.

(** ** decodeKV *)

Lemma len_header_bytes h : len (header_bytes h) = 12.
Proof. done. Qed.

Lemma decodeKV_spec b h :
  12 <= len b →
  headerFromBytes (take 12 b) = Ret (Ok h) →
  12 <= uint32 (12 + keySize h) <= len b →
  decodeKV b =
  Ret (timestamp h,
       take (Z.to_nat (uint32 (12 + keySize h) - 12)) (drop 12 b),
       drop (Z.to_nat (uint32 (12 + keySize h))) b).
Proof.
  intros Hb Hh Hk. unfold decodeKV, slice_from.
  rewrite (slice_take_drop b 0 12) by lia.
  cbn [mbind outcome_bind].
  change (Z.to_nat (12 - 0)) with 12%nat. change (Z.to_nat 0) with 0%nat.
  rewrite drop_0, Hh. cbn [mbind outcome_bind].
  rewrite !slice_take_drop by lia. cbn [mbind outcome_bind].
  change (Z.to_nat 12) with 12%nat.
  do 2 f_equal. apply take_ge. rewrite length_drop. unfold len in *. lia.
Qed.

(** A record as it lies on disk. *)
Lemma decodeKV_record ts k v :
  0 <= ts < 2 ^ 32 → 12 + len k < 2 ^ 32 → len v < 2 ^ 32 →
  decodeKV (header_bytes (mkHeader ts (len k) (len v)) ++ k ++ v) = Ret (ts, k, v).
Proof.
  intros Hts Hk Hv. pose proof (len_nonneg k). pose proof (len_nonneg v).
  rewrite (decodeKV_spec _ (mkHeader ts (len k) (len v))).
  - cbn [keySize timestamp]. rewrite uint32_small by lia.
    rewrite !drop_app_length' by (rewrite ?length_header_bytes; lia).
    replace (Z.to_nat (12 + len k)) with (length (header_bytes (mkHeader ts (len k) (len v))) + length k)%nat
      by (rewrite length_header_bytes; unfold len; lia).
    rewrite drop_app_add', drop_app_length by done.
    replace (Z.to_nat (12 + len k - 12)) with (length k) by (unfold len; lia).
    by rewrite take_app_length.
  - rewrite !len_app, len_header_bytes. lia.
  - rewrite take_app_length' by (by rewrite length_header_bytes).
    rewrite headerFromBytes_header_bytes. cbn [timestamp keySize valueSize].
    by rewrite !uint32_small by lia.
  - cbn [keySize]. rewrite uint32_small by lia.
    rewrite !len_app, len_header_bytes. lia.
Qed.

(** ** encodeKV *)

Lemma make_add a b : 0 <= a → 0 <= b → make (a + b) = make a ++ make b.
Proof.
  intros. unfold make. rewrite <- replicate_add. f_equal. lia.
Qed.

Lemma length_make n : length (make n) = Z.to_nat n.
Proof. apply length_replicate. Qed.

Lemma WriteBytes_make h n :
  0 <= n → WriteBytes h (make (12 + n)) = Ret (header_bytes h ++ make n).
Proof.
  intros. rewrite WriteBytes_spec by (rewrite len_make; lia).
  do 2 f_equal. unfold make. rewrite drop_replicate. f_equal. lia.
Qed.

(** In the range of the length fields, a key and a value of well-formed
    UTF-8 are encoded as the header followed by their bytes. *)
Lemma encodeKV_valid ts k v :
  utf8.Valid k → utf8.Valid v → len k < 2 ^ 32 → len v < 2 ^ 32 →
  encodeKV ts k v =
  Ret (12 + len k + len v, header_bytes (mkHeader ts (len k) (len v)) ++ k ++ v).
Proof.
  intros Vk Vv Hk Hv. pose proof (len_nonneg k). pose proof (len_nonneg v).
  unfold encodeKV, KeyLen. cbn [keySize valueSize].
  rewrite !uint32_small by lia.
  rewrite <- Z.add_assoc, WriteBytes_make by lia. cbn [mbind outcome_bind].
  set (h := {| timestamp := ts; keySize := len k; valueSize := len v |}).
  rewrite make_add by lia.
  unfold range_string.
  rewrite (loop_valid 12 k Vk (length k) 0 (header_bytes h)) ;
    [|done|rewrite length_make; unfold len; lia|done].
  cbn [mbind outcome_bind].
  rewrite <- (app_nil_r (make (len v))), !app_assoc,
    <- (app_assoc (header_bytes h ++ k)).
  rewrite (loop_valid (12 + len k) v Vv (length v) 0 (header_bytes h ++ k));
    [|done|rewrite length_make; unfold len; lia
     |rewrite len_app, len_header_bytes; lia].
  cbn [mbind outcome_bind]. rewrite app_nil_r, <- app_assoc.
  rewrite !len_app, len_header_bytes. do 2 f_equal. 
Qed.

(** What a call of [encodeKV] that returns has produced, whatever the bytes
    of the key and the value: both lengths fit their fields, the buffer
    has the full length and starts with the header, and a value of
    well-formed UTF-8 lies behind the key as it is. *)
Lemma encodeKV_Ret ts k v n buf :
  encodeKV ts k v = Ret (n, buf) →
  len k < 2 ^ 32 ∧ len v < 2 ^ 32 ∧
  n = 12 + len k + len v ∧ len buf = n ∧
  take 12 buf = header_bytes (mkHeader ts (len k) (len v)) ∧
  (utf8.Valid v → drop (Z.to_nat (12 + len k)) buf = v).
Proof.
  intros He. pose proof (len_nonneg k) as Hk0. pose proof (len_nonneg v) as Hv0.
  pose proof (uint32_range (len k)) as Hks.
  pose proof (uint32_range (len v)) as Hvs.
  unfold encodeKV, KeyLen in He. cbn [keySize valueSize] in He.
  set (ks := uint32 (len k)) in *. set (vs := uint32 (len v)) in *.
  set (h := {| timestamp := ts; keySize := ks; valueSize := vs |}) in *.
  rewrite <- Z.add_assoc, WriteBytes_make in He by lia.
  cbn [mbind outcome_bind] in He.
  apply bind_Ret in He as (buf1 & Hl1 & He).
  apply bind_Ret in He as (buf2 & Hl2 & He).
  injection He as <- <-.
  assert (Hlen0 : len (header_bytes h ++ make (ks + vs)) = 12 + ks + vs).
  { rewrite len_app, len_header_bytes, len_make; lia. }
  pose proof Hl1 as Hl1'. pose proof Hl2 as Hl2'.
  apply loop_Ret in Hl1' as (Hlen1 & Htk1 & Hroom1); [|done|lia].
  apply loop_Ret in Hl2' as (Hlen2 & Htk2 & Hroom2); [|done|lia].
  rewrite Hlen0 in Hlen1. rewrite Hlen1 in Hlen2. rewrite Hlen0 in Hroom1.
  rewrite Hlen1 in Hroom2.
  assert (Hk : len k = ks).
  { destruct k as [|b0 k']; [done|]. specialize (Hroom1 ltac:(done)).
    subst ks vs. unfold uint32 in *. dlia. }
  assert (Hv : len v = vs).
  { destruct v as [|b0 v']; [done|]. specialize (Hroom2 ltac:(done)).
    subst ks vs. unfold uint32 in *. dlia. }
  split; [lia|]. split; [lia|]. split; [lia|]. split; [lia|]. split.
  - apply (f_equal (take 12)) in Htk2. rewrite !take_take in Htk2.
    rewrite !Nat.min_l in Htk2 by lia. rewrite Htk2.
    replace (Z.to_nat (12 + 0)) with 12%nat in Htk1 by lia. rewrite Htk1.
    subst h. rewrite Hk, Hv.
    by rewrite take_app_length' by (by rewrite length_header_bytes).
  - intros Vv.
    rewrite <- (take_drop (Z.to_nat (12 + ks)) buf1) in Hl2.
    rewrite <- (app_nil_r (drop (Z.to_nat (12 + ks)) buf1)) in Hl2.
    unfold range_string in Hl2.
    rewrite (loop_valid (12 + ks) v Vv) in Hl2.
    + injection Hl2 as <-. rewrite app_nil_r, Hk.
      apply drop_app_length'. rewrite length_take. unfold len in *. lia.
    + done.
    + rewrite length_drop. unfold len in *. lia.
    + unfold len in *. rewrite length_take. lia.
Qed.

(** ** The store *)

(** A call of [Set] that returns has encoded the record, appended it to
    the file behind the store and put its place into [keyDir]. *)
Lemma Set_Ret d k v now w d' w' :
  Set_ d k v now w = Ret (d', w') →
  ∃ data name c,
    encodeKV (uint32 now) k v = Ret (len data, data) ∧
    open_files w !! f d = Some name ∧ disk w !! name = Some c ∧
    len c + len data <= maxInt64 ∧
    w' = mkWorld (<[name := c ++ data]> (disk w)) (open_files w) (next_fd w)
                 (<[k := entry_of now (curPos d) (len data)]> (keyDir w)) ∧
    d' = mkDiskStore (f d) (int64 (curPos d + len data)).
Proof.
  unfold Set_. intros H.
  apply bind_Ret in H as ([n data] & He & H).
  pose proof (encodeKV_Ret _ _ _ _ _ He) as (_ & _ & _ & Hn & _).
  subst n. unfold Write in H.
  destruct (open_files w !! f d) as [name|] eqn:Hf; [|done].
  destruct (disk w !! name) as [c|] eqn:Hc; [|done].
  case_decide; [|done]. rewrite decide_False in H by (intros ?; done).
  injection H as <- <-. by exists data, name, c.
Qed.

Lemma Set_store_ok d k v now w d' w' :
  store_ok w d → Set_ d k v now w = Ret (d', w') → store_ok w' d'.
Proof.
  intros (name & c & Hf & Hc & Hp) H.
  apply Set_Ret in H as (data & name' & c' & _ & Hf' & Hc' & Hsz & -> & ->).
  rewrite Hf in Hf'. injection Hf' as <-. rewrite Hc in Hc'. injection Hc' as <-.
  exists name, (c ++ data). cbn. split; [done|]. split; [by rewrite lookup_insert_eq|].
  rewrite len_app, Hp. apply int64_small.
  pose proof (len_nonneg c). pose proof (len_nonneg data). unfold maxInt64 in *. lia.
Qed.

Lemma NewDiskStore_store_ok name w d w' :
  NewDiskStore name w = (Ok d, w') → store_ok w' d.
Proof.
  unfold NewDiskStore, Stat, OpenFile.
  destruct (disk w !! name) as [c|] eqn:Hc; cbn; intros [= <- <-]; cbn.
  - exists name, c. cbn. by rewrite lookup_insert_eq.
  - exists name, []. cbn. by rewrite !lookup_insert_eq.
Qed.

Lemma decodeKV_encoded ts k v n buf :
  0 <= ts < 2 ^ 32 → 12 + len k < 2 ^ 32 → utf8.Valid v →
  encodeKV ts k v = Ret (n, buf) →
  ∃ k', decodeKV buf = Ret (ts, k', v).
Proof.
  intros Hts Hk Vv He. pose proof (len_nonneg k). pose proof (len_nonneg v).
  apply encodeKV_Ret in He as (_ & Hv & -> & Hlen & Hhdr & Hval).
  eexists.
  rewrite (decodeKV_spec _ (mkHeader ts (len k) (len v))).
  - cbn [timestamp keySize]. rewrite uint32_small by lia. by rewrite Hval.
  - lia.
  - rewrite Hhdr, headerFromBytes_header_bytes. cbn [timestamp keySize valueSize].
    by rewrite !uint32_small by lia.
  - cbn [keySize]. rewrite uint32_small by lia. lia.
Qed.

(** Reading back what [Write] has just appended. *)
Lemma ReadAt_appended fd name c data w :
  open_files w !! fd = Some name → disk w !! name = Some (c ++ data) →
  0 < len data →
  ReadAt fd (len data) (len c) w = Ok data.
Proof.
  intros Hf Hc Hd. unfold ReadAt. pose proof (len_nonneg c).
  rewrite decide_False by lia. rewrite decide_False by lia.
  rewrite Hf, Hc, decide_True by (rewrite len_app; lia).
  f_equal. unfold len. rewrite !Nat2Z.id, drop_app_length. apply take_ge. lia.
Qed.

Lemma Set_then_Get d k v now w d' w' :
  store_ok w d → utf8.Valid v → 12 + len k < 2 ^ 32 →
  Set_ d k v now w = Ret (d', w') → Get d' k w' = Ret v.
Proof.
  intros (name & c & Hf & Hc & Hp) Vv Hk H.
  apply Set_Ret in H as (data & name' & c' & He & Hf' & Hc' & Hsz & -> & ->).
  rewrite Hf in Hf'. injection Hf' as <-. rewrite Hc in Hc'. injection Hc' as <-.
  pose proof (encodeKV_Ret _ _ _ _ _ He) as (_ & _ & Hn & _).
  pose proof (len_nonneg k). pose proof (len_nonneg v).
  apply decodeKV_encoded in He as (k' & Hdec); [|apply uint32_range|done|done].
  unfold Get, read_entry. cbn [keyDir]. rewrite lookup_insert_eq.
  cbn [entry_of ke_valueSize valuePos f]. rewrite Hp.
  rewrite (ReadAt_appended (f d) name c data);
    [|done|cbn; by rewrite lookup_insert_eq|lia].
  by rewrite Hdec.
Qed.

(** * The claims *)

(** ** Helpers on the inputs of the examples *)

Lemma Valid_ascii s : Forall (λ b, utf8.seq1 b = true) s → utf8.Valid s.
Proof. induction 1; [constructor|by apply utf8.Valid_1]. Qed.

Lemma Valid_replicate n b : utf8.seq1 b = true → utf8.Valid (replicate n b).
Proof. intros. apply Valid_ascii. by apply Forall_replicate. Qed.

Lemma len_replicate n b : 0 <= n → len (replicate (Z.to_nat n) b) = n.
Proof. intros. unfold len. rewrite length_replicate. lia. Qed.

Lemma store_ok_d0 : store_ok Ex.w0 Ex.d0.
Proof. by apply (NewDiskStore_store_ok Ex.db (boot ∅)). Qed.

Ltac valid_ascii := apply Valid_ascii; repeat constructor.

(** [Set] returns whenever the key and the value are well-formed UTF-8,
    their lengths fit the header and the file has room. *)
Lemma Set_returns d k v now w :
  store_ok w d → utf8.Valid k → utf8.Valid v →
  len k < 2 ^ 32 → len v < 2 ^ 32 →
  curPos d + 12 + len k + len v <= maxInt64 →
  ∃ d' w', Set_ d k v now w = Ret (d', w').
Proof.
  intros (name & c & Hf & Hc & Hp) Vk Vv Hk Hv Hroom.
  unfold Set_. rewrite encodeKV_valid by done. cbn [mbind outcome_bind].
  unfold Write. rewrite Hf, Hc.
  set (h := mkHeader _ _ _).
  rewrite decide_True by (rewrite !len_app, len_header_bytes; lia).
  rewrite decide_False by (rewrite !len_app, len_header_bytes; lia).
  eauto.
Qed.

(** ** C2 *)

Lemma Valid_key_4GiB : utf8.Valid Ex.key_4GiB.
Proof. apply Valid_replicate. reflexivity. Qed.

Lemma len_key_4GiB : len Ex.key_4GiB = 2 ^ 32.
Proof. unfold Ex.key_4GiB. apply len_replicate. lia. Qed.

(** C2, counterexample: a key of [2^32] letters is well-formed UTF-8, and
    encoding and decoding it does not give it back: [uint32(len(key))] is
    zero, the buffer has room for the header only, and the first store of
    the key loop is out of range. *)
Lemma C2_counterexample :
  utf8.Valid Ex.key_4GiB ∧ utf8.Valid [] ∧
  roundtrip 0 Ex.key_4GiB [] ≠ Ret (0, Ex.key_4GiB, []).
Proof.
  split; [exact Valid_key_4GiB|]. split; [exact utf8.Valid_nil|].
  unfold roundtrip.
  destruct (encodeKV 0 Ex.key_4GiB []) as [[n buf]|p] eqn:E.
  - apply encodeKV_Ret in E as (Hk & _). exfalso.
    rewrite len_key_4GiB in Hk. lia.
  - cbn [mbind outcome_bind]. discriminate.
Qed.

(** C2, as amended: for every timestamp in the range of [uint32], every key
    of well-formed UTF-8 shorter than [2^32 - 12] bytes and every value of
    well-formed UTF-8 shorter than [2^32] bytes, decoding the buffer that
    [encodeKV] produced gives back the timestamp, the key and the value. *)
Theorem C2_roundtrip ts k v :
  0 <= ts < 2 ^ 32 → utf8.Valid k → utf8.Valid v →
  12 + len k < 2 ^ 32 → len v < 2 ^ 32 →
  roundtrip ts k v = Ret (ts, k, v).
Proof.
  intros Hts Vk Vv Hk Hv. pose proof (len_nonneg k).
  unfold roundtrip. rewrite encodeKV_valid by (done || lia).
  cbn [mbind outcome_bind]. by apply decodeKV_record.
Qed.

(** C2, witness: a key with a two-byte rune and an eleven-byte value. *)
Lemma C2_roundtrip_witness :
  roundtrip Ex.now Ex.ne Ex.shakespeare = Ret (Ex.now, Ex.ne, Ex.shakespeare).
Proof.
  apply C2_roundtrip.
  - vm_compute. split; [discriminate|reflexivity].
  - apply utf8.Valid_1; [reflexivity|]. apply utf8.Valid_2; [reflexivity|].
    constructor.
  - valid_ascii.
  - reflexivity.
  - reflexivity.
Defined.

(** In the twelve lengths below [2^32] that are left out, the key is
    encoded and the decoder fails on its own record: [12+header.keySize]
    wraps on [uint32]. *)
Lemma decodeKV_record_wrap ts k v :
  0 <= ts < 2 ^ 32 → 2 ^ 32 - 12 <= len k < 2 ^ 32 → len v < 2 ^ 32 →
  decodeKV (header_bytes (mkHeader ts (len k) (len v)) ++ k ++ v)
  = Panic PanicBounds.
Proof.
  intros Hts Hk Hv. pose proof (len_nonneg v).
  set (h := mkHeader ts (len k) (len v)).
  unfold decodeKV.
  rewrite slice_take_drop by (rewrite ?len_app, ?len_header_bytes; lia).
  cbn [mbind outcome_bind].
  change (Z.to_nat (12 - 0)) with 12%nat. change (Z.to_nat 0) with 0%nat.
  rewrite drop_0, take_app_length' by (apply (length_header_bytes h)).
  rewrite headerFromBytes_header_bytes. cbn [mbind outcome_bind keySize h].
  rewrite (uint32_small (len k)) by lia.
  unfold slice at 1. rewrite decide_False; [reflexivity|].
  unfold uint32. dlia.
Qed.

Lemma roundtrip_wrap ts k v :
  0 <= ts < 2 ^ 32 → utf8.Valid k → utf8.Valid v →
  2 ^ 32 - 12 <= len k < 2 ^ 32 → len v < 2 ^ 32 →
  roundtrip ts k v = Panic PanicBounds.
Proof.
  intros Hts Vk Vv Hk Hv.
  unfold roundtrip. rewrite encodeKV_valid by (assumption || lia).
  cbn [mbind outcome_bind]. apply decodeKV_record_wrap; assumption.
Qed.

(** ** C7 *)

(** C7: for every store, open or not, and every key without an entry in
    the index, [Get] returns the empty string; it does not panic and it
    has no error to return. *)
Theorem C7_Get_absent d k w : keyDir w !! k = None → Get d k w = Ret [].
Proof. intros H. unfold Get. by rewrite H. Qed.

(** C7, witness: a key that was never set, on a fresh store. *)
Lemma C7_Get_absent_witness :
  keyDir Ex.w0 !! Ex.missing = None ∧ Get Ex.d0 Ex.missing Ex.w0 = Ret [].
Proof.
  assert (H : keyDir Ex.w0 !! Ex.missing = None) by (vm_compute; reflexivity).
  split; [exact H|]. apply C7_Get_absent. exact H.
Defined.

(** ** C3 *)

(** C3, counterexample: on a fresh store with cursor 0, after
    [Set("othello", "shakespeare")] the entry of the key has [valuePos] 0
    and [valueSize] 30, not 0 + 12 + 7 and 11. *)
Lemma C3_counterexample :
  match Set_ Ex.d0 Ex.othello Ex.shakespeare Ex.now Ex.w0 with
  | Ret (d', w') =>
    match keyDir w' !! Ex.othello with
    | Some e =>
      valuePos e ≠ curPos Ex.d0 + 12 + len Ex.othello ∧
      ke_valueSize e ≠ len Ex.shakespeare
    | None => False
    end
  | Panic _ => False
  end.
Proof. vm_compute. split; discriminate. Qed.

Lemma Set_index_entry d k v now w d' w' :
  store_ok w d → Set_ d k v now w = Ret (d', w') →
  keyDir w' !! k = Some {| fileId := 0;
                           ke_valueSize := 12 + len k + len v;
                           valuePos := curPos d;
                           ke_timestamp := uint32 now |} ∧
  curPos d' = curPos d + (12 + len k + len v).
Proof.
  intros (name & c & Hf & Hc & Hp) H.
  apply Set_Ret in H as (data & name' & c' & He & Hf' & Hc' & Hsz & -> & ->).
  rewrite Hf in Hf'. injection Hf' as <-. rewrite Hc in Hc'. injection Hc' as <-.
  apply encodeKV_Ret in He as (_ & _ & Hn & _).
  cbn [keyDir curPos]. rewrite lookup_insert_eq, Hn. split; [done|].
  apply int64_small. pose proof (len_nonneg c). pose proof (len_nonneg k).
  pose proof (len_nonneg v). unfold maxInt64 in *. lia.
Qed.

(** C3, as amended: for every store in good order with cursor [c], a call
    [Set(k, v)] that returns has put into the index, for [k], the entry
    whose [valuePos] is [c], the offset of the record, and whose
    [valueSize] is the length of the whole record, [12 + len(k) + len(v)];
    and it has advanced the cursor by exactly that length. *)
Theorem C3_Set_index_entry d k v now w d' w' :
  store_ok w d → Set_ d k v now w = Ret (d', w') →
  keyDir w' !! k = Some {| fileId := 0;
                           ke_valueSize := 12 + len k + len v;
                           valuePos := curPos d;
                           ke_timestamp := uint32 now |} ∧
  curPos d' = curPos d + (12 + len k + len v).
Proof. apply Set_index_entry. Qed.

(** A scenario of the examples runs to its end. *)
Ltac runs := vm_compute; reflexivity.

(** C3, witness: the first [Set] on a fresh store. *)
Lemma C3_Set_index_entry_witness :
  match Set_ Ex.d0 Ex.othello Ex.shakespeare Ex.now Ex.w0 with
  | Ret (d', w') =>
      store_ok Ex.w0 Ex.d0 ∧
      keyDir w' !! Ex.othello =
        Some {| fileId := 0;
                ke_valueSize := 12 + len Ex.othello + len Ex.shakespeare;
                valuePos := curPos Ex.d0;
                ke_timestamp := uint32 Ex.now |} ∧
      curPos d' = curPos Ex.d0 + (12 + len Ex.othello + len Ex.shakespeare)
  | Panic _ => False
  end.
Proof.
  assert (H : returns (Set_ Ex.d0 Ex.othello Ex.shakespeare Ex.now Ex.w0) = true)
    by runs.
  destruct (Set_ Ex.d0 Ex.othello Ex.shakespeare Ex.now Ex.w0)
    as [[d' w']|p] eqn:E; [|discriminate H].
  split; [exact store_ok_d0|].
  exact (C3_Set_index_entry _ _ _ _ _ _ _ store_ok_d0 E).
Defined.

(** ** C4 *)

(** C4, counterexample: the value [0xFF 'A' 'B'] is not UTF-8; [Set] stores
    it and returns, and [Get] returns [0xEF 'A' 'B']: the loop over the
    runes wrote U+FFFD where the invalid byte was, and the two bytes behind
    it were written over. *)
Lemma C4_counterexample :
  store_ok Ex.w0 Ex.d0 ∧
  ('(d', w') ← Set_ Ex.d0 Ex.othello Ex.not_utf8 Ex.now Ex.w0;
   Get d' Ex.othello w') = Ret [xef; "A"; "B"]%byte ∧
  [xef; "A"; "B"]%byte ≠ Ex.not_utf8.
Proof. split; [exact store_ok_d0|]. split; [runs|discriminate]. Qed.

(** C4, as amended: for every store in good order, every key shorter than
    [2^32 - 12] bytes and every value of well-formed UTF-8, right after a
    call [Set(k, v)] that returns, [Get(k)] on the same store returns
    [v]. *)
Theorem C4_Set_then_Get d k v now w d' w' :
  store_ok w d → utf8.Valid v → 12 + len k < 2 ^ 32 →
  Set_ d k v now w = Ret (d', w') →
  Get d' k w' = Ret v.
Proof. apply Set_then_Get. Qed.

(** C4, witness: a key with a two-byte rune on a fresh store. *)
Lemma C4_Set_then_Get_witness :
  match Set_ Ex.d0 Ex.ne Ex.shakespeare Ex.now Ex.w0 with
  | Ret (d', w') => Get d' Ex.ne w' = Ret Ex.shakespeare
  | Panic _ => False
  end.
Proof.
  assert (H : returns (Set_ Ex.d0 Ex.ne Ex.shakespeare Ex.now Ex.w0) = true)
    by runs.
  destruct (Set_ Ex.d0 Ex.ne Ex.shakespeare Ex.now Ex.w0)
    as [[d' w']|p] eqn:E; [|discriminate H].
  apply (C4_Set_then_Get Ex.d0 Ex.ne Ex.shakespeare Ex.now Ex.w0 d' w').
  - exact store_ok_d0.
  - valid_ascii.
  - reflexivity.
  - exact E.
Defined.

(** ** C5 *)

(** C5, counterexample: the second value written for the key is not UTF-8,
    and [Get] returns other bytes than were set. *)
Lemma C5_counterexample :
  store_ok Ex.w0 Ex.d0 ∧
  ('(d1, w1) ← Set_ Ex.d0 Ex.othello Ex.marlowe Ex.now Ex.w0;
   '(d2, w2) ← Set_ d1 Ex.othello Ex.not_utf8 (Ex.now + 1) w1;
   Get d2 Ex.othello w2) = Ret [xef; "A"; "B"]%byte ∧
  [xef; "A"; "B"]%byte ≠ Ex.not_utf8.
Proof. split; [exact store_ok_d0|]. split; [runs|discriminate]. Qed.

(** C5, as amended: for every store in good order, every key shorter than
    [2^32 - 12] bytes and every two values of which the second is
    well-formed UTF-8, after [Set(k, v1)] and [Set(k, v2)] have both
    returned, [Get(k)] returns [v2], and the index has for [k] the one
    entry of the second record: it starts where the first record ends and
    has the length of the second. *)
Theorem C5_overwrite d k v1 v2 now1 now2 w d1 w1 d2 w2 :
  store_ok w d → utf8.Valid v2 → 12 + len k < 2 ^ 32 →
  Set_ d k v1 now1 w = Ret (d1, w1) →
  Set_ d1 k v2 now2 w1 = Ret (d2, w2) →
  Get d2 k w2 = Ret v2 ∧
  keyDir w2 !! k =
    Some (entry_of now2 (curPos d + (12 + len k + len v1)) (12 + len k + len v2)).
Proof.
  intros Hok Vv Hk H1 H2.
  pose proof (Set_store_ok _ _ _ _ _ _ _ Hok H1) as Hok1.
  split; [by apply (Set_then_Get d1 k v2 now2 w1)|].
  destruct (Set_index_entry _ _ _ _ _ _ _ Hok H1) as [_ Hc].
  destruct (Set_index_entry _ _ _ _ _ _ _ Hok1 H2) as [He _].
  by rewrite He, Hc.
Qed.

(** C5, witness: two authors for one play. *)
Lemma C5_overwrite_witness :
  match Set_ Ex.d0 Ex.othello Ex.marlowe Ex.now Ex.w0 with
  | Ret (d1, w1) =>
    match Set_ d1 Ex.othello Ex.shakespeare (Ex.now + 1) w1 with
    | Ret (d2, w2) =>
      Get d2 Ex.othello w2 = Ret Ex.shakespeare ∧
      keyDir w2 !! Ex.othello =
        Some (entry_of (Ex.now + 1)
                (curPos Ex.d0 + (12 + len Ex.othello + len Ex.marlowe))
                (12 + len Ex.othello + len Ex.shakespeare))
    | Panic _ => False
    end
  | Panic _ => False
  end.
Proof.
  assert (H : returns ('(d1, w1) ← Set_ Ex.d0 Ex.othello Ex.marlowe Ex.now Ex.w0;
                       Set_ d1 Ex.othello Ex.shakespeare (Ex.now + 1) w1) = true)
    by runs.
  destruct (Set_ Ex.d0 Ex.othello Ex.marlowe Ex.now Ex.w0)
    as [[d1 w1]|p] eqn:E1; [|discriminate H].
  cbn [mbind outcome_bind] in H.
  destruct (Set_ d1 Ex.othello Ex.shakespeare (Ex.now + 1) w1)
    as [[d2 w2]|p] eqn:E2; [|discriminate H].
  apply (C5_overwrite Ex.d0 Ex.othello Ex.marlowe Ex.shakespeare
           Ex.now (Ex.now + 1) Ex.w0 d1 w1 d2 w2).
  - exact store_ok_d0.
  - valid_ascii.
  - reflexivity.
  - exact E1.
  - exact E2.
Defined.

(** ** C8 *)

(** A little-endian word read from four bytes is in the range of [uint32]. *)
Lemma Uint32_range b v : Uint32 b = Ret v → 0 <= v < 2 ^ 32.
Proof.
  destruct b as [|b0 [|b1 [|b2 [|b3 b]]]]; try done. intros [= <-].
  pose proof (b2z_range b0). pose proof (b2z_range b1).
  pose proof (b2z_range b2). pose proof (b2z_range b3).
  rewrite !Z.shiftl_mul_pow2 by lia.
  change (2 ^ 8) with 256. change (2 ^ 16) with 65536.
  change (2 ^ 24) with 16777216.
  rewrite (Z.lor_comm (b2z b0)), (lor_disjoint (b2z b1 * 256) (b2z b0) 8)
    by (change (2 ^ 8) with 256; dlia).
  rewrite (Z.lor_comm _ (b2z b2 * 65536)),
    (lor_disjoint (b2z b2 * 65536) _ 16) by (change (2 ^ 16) with 65536; dlia).
  rewrite (Z.lor_comm _ (b2z b3 * 16777216)),
    (lor_disjoint (b2z b3 * 16777216) _ 24)
    by (change (2 ^ 24) with 16777216; dlia).
  lia.
Qed.

Lemma headerFromBytes_Ok hb h :
  headerFromBytes hb = Ret (Ok h) →
  0 <= timestamp h < 2 ^ 32 ∧ 0 <= keySize h < 2 ^ 32 ∧
  0 <= valueSize h < 2 ^ 32.
Proof.
  unfold headerFromBytes. case_decide; [done|]. intros E.
  apply bind_Ret in E as (t & Ht & E). apply bind_Ret in E as (k & Hk & E).
  apply bind_Ret in E as (v & Hv & E). injection E as <-.
  apply bind_Ret in Ht as (? & _ & Ht). apply bind_Ret in Hk as (? & _ & Hk).
  apply bind_Ret in Hv as (? & _ & Hv).
  cbn [timestamp keySize valueSize].
  apply Uint32_range in Ht, Hk, Hv. done.
Qed.

(** C8, counterexample: thirteen zero bytes have a header that declares an
    empty key and an empty value, so their length is not [12 + 0 + 0]; and
    [decodeKV] returns, with the thirteenth byte as the value. *)
Lemma C8_counterexample :
  headerFromBytes (take 12 Ex.thirteen) = Ret (Ok (mkHeader 0 0 0)) ∧
  len Ex.thirteen ≠ 12 + 0 + 0 ∧
  decodeKV Ex.thirteen = Ret (0, [], [x00]).
Proof. split; [runs|]. split; [discriminate|runs]. Qed.

(** C8, as amended: [headerFromBytes] returns the invalid-header-size error
    for every buffer whose length is not 12; [decodeKV] hands it the first
    12 bytes of its buffer, and so, on every buffer of at least 12 bytes,
    the header is read without an error, and when the buffer holds at
    least [keySize] bytes behind the header, [decodeKV] returns the
    timestamp, the [keySize] bytes behind the header as the key and all
    the bytes behind them as the value, whatever [valueSize] says. *)
Theorem C8_decodeKV_lengths b :
  (length b ≠ 12%nat →
   headerFromBytes b = Ret (Err (ErrInvalidHeaderSize (length b)))) ∧
  (12 <= len b →
   ∃ h, headerFromBytes (take 12 b) = Ret (Ok h) ∧
        (12 + keySize h < 2 ^ 32 → 12 + keySize h <= len b →
         decodeKV b =
         Ret (timestamp h, take (Z.to_nat (keySize h)) (drop 12 b),
              drop (Z.to_nat (12 + keySize h)) b))).
Proof.
  split.
  - intros H. unfold headerFromBytes. by rewrite decide_True.
  - intros Hb.
    destruct (headerFromBytes_12 (take 12 b)) as [h Hh].
    { rewrite length_take. unfold len in Hb. lia. }
    exists h. split; [done|]. intros Hk Hl.
    pose proof (headerFromBytes_Ok _ _ Hh) as (_ & Hr & _).
    rewrite (decodeKV_spec b h) by (rewrite ?uint32_small; done || lia).
    rewrite uint32_small by lia.
    by replace (12 + keySize h - 12) with (keySize h) by lia.
Qed.

(** C8, witness: the thirteen zero bytes. *)
Lemma C8_decodeKV_lengths_witness :
  12 <= len Ex.thirteen ∧
  ∃ h, headerFromBytes (take 12 Ex.thirteen) = Ret (Ok h) ∧
       decodeKV Ex.thirteen =
       Ret (timestamp h, take (Z.to_nat (keySize h)) (drop 12 Ex.thirteen),
            drop (Z.to_nat (12 + keySize h)) Ex.thirteen).
Proof.
  assert (Hb : 12 <= len Ex.thirteen) by (vm_compute; discriminate).
  split; [exact Hb|].
  destruct (proj2 (C8_decodeKV_lengths Ex.thirteen) Hb) as (h & Hh & Hd).
  exists h. split; [exact Hh|].
  assert (Hz : headerFromBytes (take 12 Ex.thirteen) = Ret (Ok (mkHeader 0 0 0)))
    by runs.
  rewrite Hz in Hh. injection Hh as <-.
  apply Hd; vm_compute; (reflexivity || discriminate).
Defined.

(** ** C9 *)

(** C9, counterexample: two stores on two files. Before the first store
    sets the key, [Get] through the second returns the empty string;
    afterwards it finds the entry of the first store in the index, reads
    at that place in its own, empty file, and panics with [io.EOF]. *)
Lemma C9_counterexample :
  let dA := Ex.d0 in
  let '(rB, w) := NewDiskStore Ex.db2 Ex.w0 in
  match rB with
  | Ok dB =>
    f dA ≠ f dB ∧
    Get dB Ex.othello w = Ret [] ∧
    ('(_, w') ← Set_ dA Ex.othello Ex.shakespeare Ex.now w;
     Get dB Ex.othello w') = Panic (PanicError ErrEOF)
  | Err _ => False
  end.
Proof. vm_compute. split; [discriminate|]. split; reflexivity. Qed.

(** C9, as amended: the index is one map for the whole process. After a
    call [Set(k, v)] through any store [d1] has returned, [Get(k)] through
    every store [d2] finds the entry written through [d1], the cursor of
    [d1] and the length of its record, and reads at that place in the file
    of [d2]. *)
Theorem C9_shared_index d1 d2 k v now w d1' w' :
  Set_ d1 k v now w = Ret (d1', w') →
  Get d2 k w' =
  read_entry d2 (entry_of now (curPos d1) (12 + len k + len v)) w'.
Proof.
  intros H.
  apply Set_Ret in H as (data & name & c & He & _ & _ & _ & -> & _).
  apply encodeKV_Ret in He as (_ & _ & Hn & _).
  unfold Get. cbn [keyDir]. by rewrite lookup_insert_eq, Hn.
Qed.

(** C9, witness: the two stores of the counterexample. *)
Lemma C9_shared_index_witness :
  let '(rB, w) := NewDiskStore Ex.db2 Ex.w0 in
  match rB with
  | Ok dB =>
    match Set_ Ex.d0 Ex.othello Ex.shakespeare Ex.now w with
    | Ret (d', w') =>
      Get dB Ex.othello w' =
      read_entry dB
        (entry_of Ex.now (curPos Ex.d0) (12 + len Ex.othello + len Ex.shakespeare))
        w'
    | Panic _ => False
    end
  | Err _ => False
  end.
Proof.
  destruct (NewDiskStore Ex.db2 Ex.w0) as [rB w] eqn:EB.
  assert (HB : (NewDiskStore Ex.db2 Ex.w0).1 = Ok {| f := 1; curPos := 0 |})
    by runs.
  rewrite EB in HB. cbn [fst] in HB. subst rB.
  assert (H : returns (Set_ Ex.d0 Ex.othello Ex.shakespeare Ex.now
                         (NewDiskStore Ex.db2 Ex.w0).2) = true) by runs.
  rewrite EB in H. cbn [snd] in H.
  destruct (Set_ Ex.d0 Ex.othello Ex.shakespeare Ex.now w)
    as [[d' w']|p] eqn:E; [|discriminate H].
  exact (C9_shared_index Ex.d0 _ Ex.othello Ex.shakespeare Ex.now w d' w' E).
Defined.

(** ** C1 and C6: opening a store reads nothing *)

Lemma NewDiskStore_keyDir name w : keyDir (NewDiskStore name w).2 = keyDir w.
Proof.
  unfold NewDiskStore, Stat, OpenFile. by destruct (disk w !! name).
Qed.

Lemma NewDiskStore_Ok name w : ∃ d, (NewDiskStore name w).1 = Ok d.
Proof.
  unfold NewDiskStore, Stat, OpenFile. destruct (disk w !! name); cbn; eauto.
Qed.


Lemma Get_after_restart name w d w' k :
  NewDiskStore name (restart w) = (Ok d, w') → Get d k w' = Ret [].
Proof.
  intros H. pose proof (NewDiskStore_keyDir name (restart w)) as Hk.
  rewrite H in Hk. cbn [snd restart boot keyDir] in Hk.
  unfold Get. by rewrite Hk, lookup_empty.
Qed.

(** ** C1 *)

(** C1, the code at the failing input: a store sets "othello", is closed,
    the process ends, and a new process opens the same file. The file does
    hold the record, the cursor is at its end, and [Get("othello")]
    returns the empty string: [NewDiskStore] has read nothing of the file,
    and the index of the new process is empty. *)
Theorem C1_reopen_without_replay :
  ('(d1, w1) ← Set_ Ex.d0 Ex.othello Ex.shakespeare Ex.now Ex.w0;
   '(_, w2) ← Close d1 w1;
   '(d3, w3) ← Ex.must_open Ex.db (restart w2);
   val ← Get d3 Ex.othello w3;
   Ret (disk w3 !! Ex.db ≫= (λ c, Some (decodeKV c)), curPos d3, val))
  = Ret (Some (Ret (uint32 Ex.now, Ex.othello, Ex.shakespeare)), 30, []).
Proof. runs. Qed.

(** ** C6 *)

(** C6, the code at the failing input: the file has a full header that
    declares a key of 3 bytes and a value of 5, and 4 bytes behind it.
    [NewDiskStore] returns a store with the cursor at 16 and no error. *)
Theorem C6_truncated_file_opens :
  headerFromBytes (take 12 Ex.truncated) = Ret (Ok (mkHeader 1 3 5)) ∧
  len Ex.truncated < 12 + 3 + 5 ∧
  (NewDiskStore Ex.db (boot {[Ex.db := Ex.truncated]})).1
  = Ok {| f := 0; curPos := 16 |}.
Proof. split; [runs|]. split; runs. Qed.

(** ** C10 *)

Lemma Get_after_Set_wrap d k v now w d' w' :
  store_ok w d → utf8.Valid k → utf8.Valid v →
  2 ^ 32 - 12 <= len k < 2 ^ 32 → len v < 2 ^ 32 →
  Set_ d k v now w = Ret (d', w') →
  Get d' k w' = Panic PanicBounds.
Proof.
  intros (name & c & Hf & Hc & Hp) Vk Vv Hk Hv H. pose proof (len_nonneg v).
  apply Set_Ret in H as (data & name' & c' & He & Hf' & Hc' & Hsz & -> & ->).
  rewrite Hf in Hf'. injection Hf' as <-. rewrite Hc in Hc'. injection Hc' as <-.
  rewrite encodeKV_valid in He by (assumption || lia).
  assert (Hd : header_bytes (mkHeader (uint32 now) (len k) (len v)) ++ k ++ v
               = data) by congruence.
  clear He. subst data.
  unfold Get, read_entry. cbn [keyDir]. rewrite lookup_insert_eq.
  cbn [entry_of ke_valueSize valuePos f]. rewrite Hp.
  rewrite (ReadAt_appended (f d) name c);
    [|assumption|cbn [disk]; apply lookup_insert_eq
     |rewrite !len_app, len_header_bytes; lia].
  rewrite decodeKV_record_wrap; [reflexivity|apply uint32_range|lia|lia].
Qed.

Lemma Valid_key_wrap : utf8.Valid Ex.key_wrap.
Proof. apply Valid_replicate. reflexivity. Qed.

Lemma len_key_wrap : len Ex.key_wrap = 2 ^ 32 - 12.
Proof. unfold Ex.key_wrap. apply len_replicate. lia. Qed.

(** C10, the code at the failing input: a key of [2^32 - 12] letters and
    the empty value. [Set] returns, and [Get] of the same key panics:
    [12+header.keySize] is computed on [uint32] and is 0, so the key is
    sliced as [data[12:0]]. *)
Theorem C10_key_wrap_panics :
  store_ok Ex.w0 Ex.d0 ∧
  ∃ d' w',
    Set_ Ex.d0 Ex.key_wrap [] Ex.now Ex.w0 = Ret (d', w') ∧
    Get d' Ex.key_wrap w' = Panic PanicBounds.
Proof.
  split; [exact store_ok_d0|].
  destruct (Set_returns Ex.d0 Ex.key_wrap [] Ex.now Ex.w0)
    as (d' & w' & E).
  - exact store_ok_d0.
  - exact Valid_key_wrap.
  - exact utf8.Valid_nil.
  - rewrite len_key_wrap. lia.
  - reflexivity.
  - rewrite len_key_wrap. vm_compute. discriminate.
  - exists d', w'. split; [exact E|].
    apply (Get_after_Set_wrap Ex.d0 Ex.key_wrap [] Ex.now Ex.w0 d' w').
    + exact store_ok_d0.
    + exact Valid_key_wrap.
    + exact utf8.Valid_nil.
    + rewrite len_key_wrap. lia.
    + reflexivity.
    + exact E.
Qed.

(** Below that length the empty value comes back as the empty string, which
    is also what an absent key gives. *)
Lemma Get_empty_value d k now w d' w' :
  store_ok w d → 12 + len k < 2 ^ 32 →
  Set_ d k [] now w = Ret (d', w') →
  Get d' k w' = Ret [] ∧
  ∀ d0 w0 k0, keyDir w0 !! k0 = None → Get d0 k0 w0 = Get d' k w'.
Proof.
  intros Hok Hk H.
  assert (Hg : Get d' k w' = Ret [])
    by (apply (Set_then_Get d k [] now w); [done|constructor|done|done]).
  split; [done|]. intros d0 w0 k0 Hn. rewrite Hg. unfold Get. by rewrite Hn.
Qed.

(** * More of the code

    ** The header *)

Lemma encodeHeader_bytes ts ks vs :
  encodeHeader ts ks vs = Ret (header_bytes (mkHeader ts ks vs)).
Proof.
  unfold encodeHeader. rewrite WriteBytes_spec by done.
  change (drop 12 (make 12)) with (@nil byte). by rewrite app_nil_r.
Qed.

Lemma z2b_mod x b : x mod 256 = b2z b → z2b x = b.
Proof.
  intros H. unfold z2b. rewrite H. unfold b2z. rewrite N2Z.id.
  by rewrite Byte.of_to_N.
Qed.

Lemma word_sum b0 b1 b2 b3 :
  Z.lor (Z.lor (Z.lor (b2z b0) (Z.shiftl (b2z b1) 8)) (Z.shiftl (b2z b2) 16))
        (Z.shiftl (b2z b3) 24)
  = b2z b0 + 256 * b2z b1 + 65536 * b2z b2 + 16777216 * b2z b3.
Proof.
  pose proof (b2z_range b0). pose proof (b2z_range b1).
  pose proof (b2z_range b2). pose proof (b2z_range b3).
  rewrite !Z.shiftl_mul_pow2 by lia.
  change (2 ^ 8) with 256. change (2 ^ 16) with 65536.
  change (2 ^ 24) with 16777216.
  rewrite (Z.lor_comm (b2z b0)).
  rewrite (lor_disjoint (b2z b1 * 256) (b2z b0) 8);
    [|lia|change (2 ^ 8) with 256; dlia|change (2 ^ 8) with 256; lia].
  rewrite (Z.lor_comm _ (b2z b2 * 65536)).
  rewrite (lor_disjoint (b2z b2 * 65536) _ 16);
    [|lia|change (2 ^ 16) with 65536; dlia|change (2 ^ 16) with 65536; lia].
  rewrite (Z.lor_comm _ (b2z b3 * 16777216)).
  rewrite (lor_disjoint (b2z b3 * 16777216) _ 24);
    [|lia|change (2 ^ 24) with 16777216; dlia|change (2 ^ 24) with 16777216; lia].
  lia.
Qed.

(** The little-endian bytes of the word that four bytes spell are those
    four bytes. *)
Lemma le_bytes_word b0 b1 b2 b3 v rest :
  Uint32 (b0 :: b1 :: b2 :: b3 :: rest) = Ret v →
  0 <= v < 2 ^ 32 ∧ le_bytes v = [b0; b1; b2; b3].
Proof.
  cbn [Uint32]. rewrite word_sum. intros [= <-].
  pose proof (b2z_range b0). pose proof (b2z_range b1).
  pose proof (b2z_range b2). pose proof (b2z_range b3).
  split; [lia|]. unfold le_bytes. rewrite !Z.shiftr_div_pow2 by lia.
  change (2 ^ 8) with 256. change (2 ^ 16) with 65536.
  change (2 ^ 24) with 16777216.
  f_equal; [|f_equal; [|f_equal; [|f_equal]]]; apply z2b_mod; dlia.
Qed.

(** X1: for every three values of [uint32], [encodeHeader] returns a buffer of
    [headerSize] bytes, and [decodeHeader] reads the three values back
    from it. *)
Theorem X1_header_roundtrip ts ks vs :
  0 <= ts < 2 ^ 32 → 0 <= ks < 2 ^ 32 → 0 <= vs < 2 ^ 32 →
  ∃ hb, encodeHeader ts ks vs = Ret hb ∧ len hb = headerSize ∧
        decodeHeader hb = Ret (ts, ks, vs).
Proof.
  intros Ht Hk Hv. exists (header_bytes (mkHeader ts ks vs)).
  split; [apply encodeHeader_bytes|]. split; [done|].
  unfold decodeHeader. rewrite headerFromBytes_header_bytes.
  cbn [mbind outcome_bind timestamp keySize valueSize].
  by rewrite !uint32_small.
Qed.

(** X1, witness: a timestamp and the sizes 7 and 11. *)
Lemma X1_header_roundtrip_witness :
  ∃ hb, encodeHeader Ex.now 7 11 = Ret hb ∧ len hb = headerSize ∧
        decodeHeader hb = Ret (Ex.now, 7, 11).
Proof. apply X1_header_roundtrip; vm_compute; split; discriminate || reflexivity. Defined.

(** Twelve bytes are read as a header whose bytes they are. *)
Lemma headerFromBytes_bytes b :
  length b = 12%nat →
  ∃ h, headerFromBytes b = Ret (Ok h) ∧
       0 <= timestamp h < 2 ^ 32 ∧ 0 <= keySize h < 2 ^ 32 ∧
       0 <= valueSize h < 2 ^ 32 ∧ header_bytes h = b.
Proof.
  intros Hl.
  destruct b as [|c0 [|c1 [|c2 [|c3 [|c4 [|c5 [|c6 [|c7 [|c8 [|c9 [|c10
    [|c11 [|c12 b]]]]]]]]]]]]]; try done.
  unfold headerFromBytes. rewrite decide_False by (cbn; lia).
  unfold slice. rewrite !decide_True by (by vm_compute).
  change (Z.to_nat (4 - 0)) with 4%nat. change (Z.to_nat 0) with 0%nat.
  change (Z.to_nat (8 - 4)) with 4%nat. change (Z.to_nat 4) with 4%nat.
  change (Z.to_nat (12 - 8)) with 4%nat. change (Z.to_nat 8) with 8%nat.
  cbn [drop take mbind outcome_bind].
  destruct (Uint32 [c0; c1; c2; c3]) as [t|] eqn:Et; [|done].
  destruct (Uint32 [c4; c5; c6; c7]) as [k|] eqn:Ek; [|done].
  destruct (Uint32 [c8; c9; c10; c11]) as [v|] eqn:Ev; [|done].
  apply le_bytes_word in Et as (Ht & Et), Ek as (Hk & Ek), Ev as (Hv & Ev).
  cbn [mbind outcome_bind]. eexists. split; [done|].
  cbn [timestamp keySize valueSize]. do 3 (split; [done|]).
  unfold header_bytes. cbn [timestamp keySize valueSize]. by rewrite Et, Ek, Ev.
Qed.

(** X2: [decodeHeader] returns on the buffers of exactly 12 bytes, with three
    values in the range of [uint32] that [encodeHeader] turns back into
    the same 12 bytes; on a buffer of any other length it panics with the
    invalid-header-size error, which carries that length. *)
Theorem X2_decodeHeader_sizes b :
  if decide (length b = 12%nat)
  then ∃ ts ks vs, decodeHeader b = Ret (ts, ks, vs) ∧
         0 <= ts < 2 ^ 32 ∧ 0 <= ks < 2 ^ 32 ∧ 0 <= vs < 2 ^ 32 ∧
         encodeHeader ts ks vs = Ret b
  else decodeHeader b = Panic (PanicError (ErrInvalidHeaderSize (length b))).
Proof.
  case_decide as Hl.
  - destruct (headerFromBytes_bytes b Hl) as (h & Hh & Ht & Hk & Hv & Hb).
    exists (timestamp h), (keySize h), (valueSize h).
    unfold decodeHeader. rewrite Hh. split; [done|]. do 3 (split; [done|]).
    rewrite encodeHeader_bytes, <- Hb. by destruct h.
  - unfold decodeHeader, headerFromBytes. by rewrite decide_True.
Qed.

(** X3: on a buffer of at least 12 bytes [WriteBytes] returns the buffer with
    its first 12 bytes replaced by the three fields, little endian, and
    the bytes behind them as they were; on a shorter buffer it panics on
    the bounds of the buffer. *)
Theorem X3_WriteBytes_bounds h buf :
  WriteBytes h buf =
  if decide (12 <= len buf) then Ret (header_bytes h ++ drop 12 buf)
  else Panic PanicBounds.
Proof.
  case_decide as Hl; [by apply WriteBytes_spec|].
  unfold WriteBytes, PutUint32, write_at.
  do 12 (destruct buf as [|? buf];
         [repeat (case_decide; cbn [mbind outcome_bind]; try done);
          unfold len in *; cbn [length le_bytes] in *; 
          repeat match goal with
            | H : context [length (_ ++ _)] |- _ => rewrite !length_app in H
            | H : context [length (take _ _)] |- _ => rewrite length_take in H
            | H : context [length (drop _ _)] |- _ => rewrite length_drop in H
            end; cbn [length] in *; lia|]).
  exfalso. unfold len in Hl. cbn [length] in Hl. lia.
Qed.

(** ** encodeKV *)

(** The stores of [encodeKV] can only fail on their bounds. *)
Lemma loop_Panic off l : ∀ buf p,
  for_each (λ buf '(i, val), utf8.EncodeRune buf (off + i) val) l buf = Panic p →
  p = PanicBounds.
Proof.
  induction l as [|[i r] l IH]; intros buf p; cbn [for_each]; [done|].
  destruct (utf8.EncodeRune buf (off + i) r) as [buf'|p'] eqn:E;
    cbn [mbind outcome_bind].
  - apply IH.
  - intros [= <-]. unfold utf8.EncodeRune, write_at in E. case_decide; congruence.
Qed.

Lemma encodeKV_Panic ts k v p : encodeKV ts k v = Panic p → p = PanicBounds.
Proof.
  unfold encodeKV, KeyLen. cbn [keySize valueSize].
  pose proof (uint32_range (len k)). pose proof (uint32_range (len v)).
  rewrite <- Z.add_assoc, WriteBytes_make by lia. cbn [mbind outcome_bind].
  destruct (for_each _ (range_string k) _) as [buf1|p1] eqn:E1;
    cbn [mbind outcome_bind].
  - destruct (for_each _ (range_string v) _) as [buf2|p2] eqn:E2;
      cbn [mbind outcome_bind]; [done|].
    intros [= <-]. by apply loop_Panic in E2.
  - intros [= <-]. by apply loop_Panic in E1.
Qed.

(** X4: for a key and a value of well-formed UTF-8, both shorter than [2^32]
    bytes, [encodeKV] returns the length [12 + len(key) + len(value)] and
    the record: the header that [encodeHeader] makes of the timestamp and
    the two lengths, then the bytes of the key, then the bytes of the
    value. *)
Theorem X4_encodeKV_layout ts k v :
  utf8.Valid k → utf8.Valid v → len k < 2 ^ 32 → len v < 2 ^ 32 →
  ∃ hb, encodeHeader ts (len k) (len v) = Ret hb ∧
        encodeKV ts k v = Ret (12 + len k + len v, hb ++ k ++ v).
Proof.
  intros Vk Vv Hk Hv. eexists. split; [apply encodeHeader_bytes|].
  by apply encodeKV_valid.
Qed.

(** X4, witness: a key with a two-byte rune. *)
Lemma X4_encodeKV_layout_witness :
  ∃ hb, encodeHeader Ex.now (len Ex.ne) (len Ex.shakespeare) = Ret hb ∧
        encodeKV Ex.now Ex.ne Ex.shakespeare
        = Ret (12 + len Ex.ne + len Ex.shakespeare, hb ++ Ex.ne ++ Ex.shakespeare).
Proof.
  apply X4_encodeKV_layout.
  - apply utf8.Valid_1; [reflexivity|]. apply utf8.Valid_2; [reflexivity|].
    constructor.
  - valid_ascii.
  - reflexivity.
  - reflexivity.
Defined.

(** X5: when the key or the value has [2^32] bytes or more, [encodeKV] panics
    on the bounds of its buffer, whatever the other string is. *)
Theorem X5_encodeKV_too_long ts k v :
  2 ^ 32 <= len k ∨ 2 ^ 32 <= len v → encodeKV ts k v = Panic PanicBounds.
Proof.
  intros H. destruct (encodeKV ts k v) as [[n buf]|p] eqn:E.
  - apply encodeKV_Ret in E as (Hk & Hv & _). lia.
  - f_equal. by apply encodeKV_Panic in E.
Qed.

(** X5, witness: a key of [2^32] letters. *)
Lemma X5_encodeKV_too_long_witness :
  encodeKV Ex.now Ex.key_4GiB Ex.shakespeare = Panic PanicBounds.
Proof.
  apply X5_encodeKV_too_long. left. rewrite len_key_4GiB. lia.
Defined.

(** A byte that begins no rune is decoded as the replacement rune, one
    byte wide. *)
Lemma dec_stray b t :
  stray b = true → utf8.DecodeRuneInString (b :: t) = (utf8.RuneError, 1%nat).
Proof.
  intros H. unfold stray in H. pose proof (b2z_range b).
  unfold utf8.DecodeRuneInString.
  assert (utf8.first (b2z b) = utf8.xx) as ->; [|done].
  unfold utf8.first. repeat case_match; try done; lia.
Qed.

Lemma EncodeRune_eq p off r :
  utf8.EncodeRune p off r = write_at p off (utf8.rune_bytes r).
Proof. done. Qed.

(** More iterations than the string has bytes change nothing. *)
Lemma range_from_fuel s : ∀ fuel i,
  (length s ≤ fuel)%nat → range_from fuel i s = range_from (length s) i s.
Proof.
  induction s as [s IH] using (induction_ltof1 _ (@length byte)).
  unfold ltof in IH. intros fuel i Hf.
  destruct s as [|b0 t]; [by destruct fuel|].
  destruct fuel as [|fuel]; [cbn in Hf; lia|].
  cbn [length range_from].
  pose proof (decode_width b0 t) as Hw. cbv zeta in Hw.
  destruct (utf8.DecodeRuneInString (b0 :: t)) as [r w] eqn:Hd.
  cbn [fst snd] in Hw. destruct Hw as [[Hw1 Hw2] Hw3].
  f_equal.
  assert (Hl : (length (drop w (b0 :: t)) ≤ length t)%nat)
    by (rewrite length_drop; cbn [length]; lia).
  rewrite (IH (drop w (b0 :: t))) by (cbn [length] in *; lia).
  symmetry. apply IH; [cbn [length]; lia|done].
Qed.

(** The loop over a string that begins with well-formed UTF-8 copies that
    part and goes on behind it. *)
Lemma loop_prefix off p :
  utf8.Valid p →
  ∀ rest fuel i pre old post,
    (length (p ++ rest) ≤ fuel)%nat → length old = length p → off + i = len pre →
    for_each (λ buf '(i, val), utf8.EncodeRune buf (off + i) val)
             (range_from fuel i (p ++ rest)) (pre ++ old ++ post)
    = for_each (λ buf '(i, val), utf8.EncodeRune buf (off + i) val)
               (range_from (length rest) (i + len p) rest) ((pre ++ p) ++ post).
Proof.
  induction 1 as [|b0 s H1 Hv IH|b0 b1 s H2 Hv IH|b0 b1 b2 s H3 Hv IH
                  |b0 b1 b2 b3 s H4 Hv IH];
    intros rest fuel i pre old post Hf Ho Hi.
  - destruct old; [|done]. cbn [app length] in *. unfold len. cbn [length].
    by rewrite Z.add_0_r, app_nil_r, range_from_fuel.
  - destruct fuel as [|fuel]; [cbn in Hf; lia|].
    destruct old as [|o0 old]; [done|].
    cbn [range_from app]. rewrite dec1 by done. cbn [for_each drop].
    rewrite EncodeRune_eq, enc1 by done. rewrite Hi.
    rewrite (write_step pre [o0] old post [b0] eq_refl
             : write_at (pre ++ o0 :: old ++ post) _ _ = _).
    cbn [mbind outcome_bind]. rewrite ?drop_0. rewrite IH.
    + rewrite <- (app_assoc pre [b0] s). cbn [app].
      by replace (i + Z.of_nat 1 + len s) with (i + len (b0 :: s))
        by (unfold len; cbn [length]; lia).
    + cbn in Hf. lia.
    + by injection Ho.
    + rewrite len_app. unfold len in *. cbn [length]. lia.
  - destruct fuel as [|fuel]; [cbn in Hf; lia|].
    destruct old as [|o0 [|o1 old]]; [done..|].
    cbn [range_from app]. rewrite dec2 by done. cbn [for_each drop].
    rewrite EncodeRune_eq, enc2 by done. rewrite Hi.
    rewrite (write_step pre [o0; o1] old post [b0; b1] eq_refl
             : write_at (pre ++ o0 :: o1 :: old ++ post) _ _ = _).
    cbn [mbind outcome_bind]. rewrite ?drop_0. rewrite IH.
    + rewrite <- (app_assoc pre [b0; b1] s). cbn [app].
      by replace (i + Z.of_nat 2 + len s) with (i + len (b0 :: b1 :: s))
        by (unfold len; cbn [length]; lia).
    + cbn in Hf. lia.
    + by injection Ho.
    + rewrite len_app. unfold len in *. cbn [length]. lia.
  - destruct fuel as [|fuel]; [cbn in Hf; lia|].
    destruct old as [|o0 [|o1 [|o2 old]]]; [done..|].
    cbn [range_from app]. rewrite dec3 by done. cbn [for_each drop].
    rewrite EncodeRune_eq, enc3 by done. rewrite Hi.
    rewrite (write_step pre [o0; o1; o2] old post [b0; b1; b2] eq_refl
             : write_at (pre ++ o0 :: o1 :: o2 :: old ++ post) _ _ = _).
    cbn [mbind outcome_bind]. rewrite ?drop_0. rewrite IH.
    + rewrite <- (app_assoc pre [b0; b1; b2] s). cbn [app].
      by replace (i + Z.of_nat 3 + len s) with (i + len (b0 :: b1 :: b2 :: s))
        by (unfold len; cbn [length]; lia).
    + cbn in Hf. lia.
    + by injection Ho.
    + rewrite len_app. unfold len in *. cbn [length]. lia.
  - destruct fuel as [|fuel]; [cbn in Hf; lia|].
    destruct old as [|o0 [|o1 [|o2 [|o3 old]]]]; [done..|].
    cbn [range_from app]. rewrite dec4 by done. cbn [for_each drop].
    rewrite EncodeRune_eq, enc4 by done. rewrite Hi.
    rewrite (write_step pre [o0; o1; o2; o3] old post [b0; b1; b2; b3] eq_refl
             : write_at (pre ++ o0 :: o1 :: o2 :: o3 :: old ++ post) _ _ = _).
    cbn [mbind outcome_bind]. rewrite ?drop_0. rewrite IH.
    + rewrite <- (app_assoc pre [b0; b1; b2; b3] s). cbn [app].
      by replace (i + Z.of_nat 4 + len s) with (i + len (b0 :: b1 :: b2 :: b3 :: s))
        by (unfold len; cbn [length]; lia).
    + cbn in Hf. lia.
    + by injection Ho.
    + rewrite len_app. unfold len in *. cbn [length]. lia.
Qed.

(** The value loop of [encodeKV] on a value with one stray byte, from the
    buffer that the key loop has left. *)
Lemma loop_stray off pre p b q :
  utf8.Valid p → utf8.Valid q → stray b = true → off = len pre →
  for_each (λ buf '(i, val), utf8.EncodeRune buf (off + i) val)
           (range_string (p ++ b :: q)) (pre ++ make (len (p ++ b :: q)))
  = if decide (2 <= len q) then Ret (pre ++ p ++ xef :: q)
    else Panic PanicBounds.
Proof.
  intros Vp Vq Hb ->. pose proof (len_nonneg p). pose proof (len_nonneg q).
  assert (Hlq : len (b :: q) = 1 + len q) by (unfold len; cbn [length]; lia).
  unfold range_string.
  rewrite len_app, make_add, <- (Z.add_0_r (len pre)) by lia.
  rewrite (loop_prefix (len pre + 0) p Vp (b :: q) _ 0 pre (make (len p)));
    [|done|rewrite length_make; unfold len; lia|lia].
  cbn [length range_from]. rewrite dec_stray by done. cbn [for_each].
  rewrite EncodeRune_eq, rune_bytes_error.
  replace (len pre + 0 + (0 + len p)) with (len (pre ++ p))
    by (rewrite len_app; lia).
  case_decide as Hq.
  - rewrite Hlq. replace (1 + len q) with (3 + (len q - 2)) by lia.
    rewrite make_add by lia.
    rewrite (write_at_app (pre ++ p) (make 3) (make (len q - 2)) [xef; xbf; xbd] eq_refl).
    assert (Hbuf : (pre ++ p) ++ [xef; xbf; xbd] ++ make (len q - 2)
                   = ((pre ++ p) ++ [xef]) ++ (xbf :: xbd :: make (len q - 2)) ++ [])
      by (by rewrite app_nil_r, <- !app_assoc).
    rewrite Hbuf. cbn [mbind outcome_bind drop]. rewrite ?drop_0.
    rewrite (loop_valid (len pre + 0) q Vq (length q) _ ((pre ++ p) ++ [xef])
               (xbf :: xbd :: make (len q - 2)) []).
    + by rewrite app_nil_r, <- !app_assoc.
    + done.
    + cbn [length]. rewrite length_make. unfold len in *. lia.
    + rewrite !len_app. unfold len. cbn [length]. lia.
  - unfold write_at. rewrite decide_False; [done|].
    rewrite (len_app (pre ++ p)), len_make, Hlq by lia.
    change (len [xef; xbf; xbd]) with 3. lia.
Qed.

(** X6: a value with one byte that begins no rune, between two parts of
    well-formed UTF-8. When at least two bytes follow the stray byte,
    [encodeKV] returns a record in which that byte is 0xEF and all the
    other bytes are as given; when fewer than two bytes follow it,
    [encodeKV] panics on the bounds of its buffer. *)
Theorem X6_encodeKV_stray_byte ts k p b q :
  utf8.Valid k → utf8.Valid p → utf8.Valid q → stray b = true →
  len k < 2 ^ 32 → len (p ++ b :: q) < 2 ^ 32 →
  ∃ hb, encodeHeader ts (len k) (len (p ++ b :: q)) = Ret hb ∧
    encodeKV ts k (p ++ b :: q) =
    if decide (2 <= len q)
    then Ret (12 + len k + len (p ++ b :: q), hb ++ k ++ p ++ xef :: q)
    else Panic PanicBounds.
Proof.
  intros Vk Vp Vq Hb Hk Hv. eexists. split; [apply encodeHeader_bytes|].
  set (v := p ++ b :: q) in *.
  pose proof (len_nonneg k). pose proof (len_nonneg v).
  unfold encodeKV, KeyLen. cbn [keySize valueSize].
  rewrite !uint32_small by lia.
  rewrite <- Z.add_assoc, WriteBytes_make by lia. cbn [mbind outcome_bind].
  set (h := {| timestamp := ts; keySize := len k; valueSize := len v |}).
  rewrite make_add by lia.
  unfold range_string at 1.
  rewrite (loop_valid 12 k Vk (length k) 0 (header_bytes h)) ;
    [|done|rewrite length_make; unfold len; lia|done].
  cbn [mbind outcome_bind]. rewrite app_assoc. subst v.
  fold (range_string (p ++ b :: q)).
  rewrite (loop_stray (12 + len k) (header_bytes h ++ k) p b q Vp Vq Hb)
    by (by rewrite len_app, len_header_bytes).
  case_decide; [|done]. cbn [mbind outcome_bind].
  rewrite <- app_assoc. do 2 f_equal.
  rewrite !len_app, len_header_bytes.
  assert (len (xef :: q) = len (b :: q)) by done. lia.
Qed.

(** X6, witness: the value [0xFF 'A' 'B']. *)
Lemma X6_encodeKV_stray_byte_witness :
  ∃ hb, encodeHeader Ex.now (len Ex.othello) (len ([] ++ xff :: ["A"; "B"]%byte))
        = Ret hb ∧
    encodeKV Ex.now Ex.othello ([] ++ xff :: ["A"; "B"]%byte) =
    if decide (2 <= len ["A"; "B"]%byte)
    then Ret (12 + len Ex.othello + len ([] ++ xff :: ["A"; "B"]%byte),
              hb ++ Ex.othello ++ [] ++ xef :: ["A"; "B"]%byte)
    else Panic PanicBounds.
Proof.
  apply X6_encodeKV_stray_byte.
  - valid_ascii.
  - constructor.
  - valid_ascii.
  - reflexivity.
  - reflexivity.
  - reflexivity.
Defined.

(** ** decodeKV *)

Lemma headerFromBytes_decodeHeader hb h :
  headerFromBytes hb = Ret (Ok h) →
  decodeHeader hb = Ret (timestamp h, keySize h, valueSize h).
Proof. intros H. unfold decodeHeader. by rewrite H. Qed.

Lemma decodeKV_split b :
  12 <= len b →
  ∃ ts ks vs, decodeHeader (take 12 b) = Ret (ts, ks, vs) ∧
    if decide (12 + ks <= len b ∧ 12 + ks < 2 ^ 32)
    then ∃ k v, decodeKV b = Ret (ts, k, v) ∧ len k = ks ∧ k ++ v = drop 12 b
    else decodeKV b = Panic PanicBounds.
Proof.
  intros Hb.
  destruct (headerFromBytes_12 (take 12 b)) as [h Hh];
    [rewrite length_take; unfold len in Hb; lia|].
  pose proof (headerFromBytes_Ok _ _ Hh) as (_ & Hks & _).
  exists (timestamp h), (keySize h), (valueSize h).
  split; [by apply headerFromBytes_decodeHeader|].
  case_decide as Hd.
  - rewrite (decodeKV_spec b h) by (rewrite ?uint32_small by lia; done || lia).
    rewrite uint32_small by lia.
    eexists _, _. split; [done|]. split.
    + unfold len in *. rewrite length_take, length_drop. lia.
    + replace (Z.to_nat (12 + keySize h))
        with (12 + Z.to_nat (12 + keySize h - 12))%nat by lia.
      rewrite <- drop_drop. apply take_drop.
  - unfold decodeKV. rewrite (slice_take_drop b 0 12) by lia.
    cbn [mbind outcome_bind].
    change (Z.to_nat (12 - 0)) with 12%nat. change (Z.to_nat 0) with 0%nat.
    rewrite drop_0, Hh. cbn [mbind outcome_bind].
    unfold slice at 1. rewrite decide_False; [done|].
    unfold uint32. intros (_ & H1 & H2). apply Hd.
    assert (12 + keySize h < 2 ^ 32 ∨ 2 ^ 32 <= 12 + keySize h < 2 * 2 ^ 32)
      as [Hlt|Hge] by lia.
    + rewrite Z.mod_small in H1, H2 by lia. lia.
    + exfalso. replace (12 + keySize h) with (12 + keySize h - 2 ^ 32 + 1 * 2 ^ 32)
        in H1 by lia.
      rewrite Z.mod_add, Z.mod_small in H1 by lia. lia.
Qed.

(** X7: on a buffer of at least 12 bytes (whose capacity is its length)
    [decodeKV] reads the header from the first 12 bytes. When the buffer
    holds [keySize] bytes behind the header and [12 + keySize] is below
    [2^32], it returns the timestamp of the header, a key of [keySize]
    bytes and a value that together are all the bytes behind the header;
    in every other case it panics on slice bounds, never with the error of
    the header. *)
Theorem X7_decodeKV_split b :
  12 <= len b →
  ∃ ts ks vs, decodeHeader (take 12 b) = Ret (ts, ks, vs) ∧
    if decide (12 + ks <= len b ∧ 12 + ks < 2 ^ 32)
    then ∃ k v, decodeKV b = Ret (ts, k, v) ∧ len k = ks ∧ k ++ v = drop 12 b
    else decodeKV b = Panic PanicBounds.
Proof. apply decodeKV_split. Qed.

(** X7, witness: a buffer whose header declares more bytes than follow. *)
Lemma X7_decodeKV_split_witness :
  ∃ ts ks vs, decodeHeader (take 12 Ex.truncated) = Ret (ts, ks, vs) ∧
    if decide (12 + ks <= len Ex.truncated ∧ 12 + ks < 2 ^ 32)
    then ∃ k v, decodeKV Ex.truncated = Ret (ts, k, v) ∧ len k = ks ∧
                k ++ v = drop 12 Ex.truncated
    else decodeKV Ex.truncated = Panic PanicBounds.
Proof. apply X7_decodeKV_split. vm_compute. discriminate. Defined.

(** ** Encoding what was decoded *)

Lemma decodeKV_Ret b ts k v :
  decodeKV b = Ret (ts, k, v) →
  12 <= len b ∧
  ∃ h, headerFromBytes (take 12 b) = Ret (Ok h) ∧ header_bytes h = take 12 b ∧
       ts = timestamp h ∧ len k = keySize h ∧ 0 <= valueSize h < 2 ^ 32 ∧
       12 + keySize h < 2 ^ 32 ∧ k ++ v = drop 12 b.
Proof.
  intros H.
  assert (Hb : 12 <= len b).
  { unfold decodeKV, slice in H. case_decide; [lia|done]. }
  split; [done|].
  destruct (headerFromBytes_bytes (take 12 b)) as (h & Hh & _ & _ & Hv & Hhb);
    [rewrite length_take; unfold len in Hb; lia|].
  exists h. do 2 (split; [done|]).
  destruct (decodeKV_split b Hb) as (ts' & ks & vs & Hdh & Hcase).
  rewrite (headerFromBytes_decodeHeader _ _ Hh) in Hdh. injection Hdh as <- <- <-.
  case_decide as Hd.
  - destruct Hcase as (k' & v' & Hdec & Hlk & Hkv). rewrite H in Hdec.
    injection Hdec as <- <- <-. repeat split; done || lia.
  - rewrite H in Hcase. done.
Qed.

(** X8: when [decodeKV] has returned a timestamp, a key and a value from a
    buffer, the key and the value are well-formed UTF-8 and the header of
    the buffer gives the length of the value as its value size, then
    [encodeKV] of the three returns that buffer and its length. *)
Theorem X8_decode_then_encode b ts k v :
  decodeKV b = Ret (ts, k, v) → utf8.Valid k → utf8.Valid v →
  (∃ ks, decodeHeader (take 12 b) = Ret (ts, ks, len v)) →
  encodeKV ts k v = Ret (len b, b).
Proof.
  intros H Vk Vv (ks & Hdh).
  apply decodeKV_Ret in H as (Hb & h & Hh & Hhb & -> & Hk & Hvs & Hks & Hkv).
  rewrite (headerFromBytes_decodeHeader _ _ Hh) in Hdh. injection Hdh as _ Hv.
  pose proof (len_nonneg k).
  rewrite encodeKV_valid by (done || lia).
  rewrite Hk, <- Hv.
  replace (mkHeader (timestamp h) (keySize h) (valueSize h)) with h by (by destruct h).
  rewrite Hhb, Hkv, take_drop. do 2 f_equal.
  rewrite <- (take_drop 12 b), len_app, <- Hkv, len_app, <- Hhb, len_header_bytes.
  lia.
Qed.

(** X8, witness: the record of "othello" and "shakespeare". *)
Lemma X8_decode_then_encode_witness :
  encodeKV 1 Ex.othello Ex.shakespeare
  = Ret (len (record 1 Ex.othello Ex.shakespeare), record 1 Ex.othello Ex.shakespeare).
Proof.
  apply X8_decode_then_encode.
  - reflexivity.
  - valid_ascii.
  - valid_ascii.
  - exists 7. reflexivity.
Defined.

(** ** Set *)

(** X9: a call of [Set] that returns has left the files as they were but for
    one: the file of the store has [12 + len(key) + len(value)] bytes more
    at its end and its old bytes unchanged; for a key and a value of
    well-formed UTF-8 the new bytes are the record of the timestamp, the
    key and the value. The descriptor of the store and the table of open
    files are unchanged. *)
Theorem X9_Set_appends d k v now w d' w' :
  Set_ d k v now w = Ret (d', w') →
  ∃ name c data,
    open_files w !! f d = Some name ∧ disk w !! name = Some c ∧
    disk w' = <[name := c ++ data]> (disk w) ∧
    len data = 12 + len k + len v ∧
    (utf8.Valid k → utf8.Valid v → data = record (uint32 now) k v) ∧
    open_files w' = open_files w ∧ f d' = f d.
Proof.
  intros H.
  apply Set_Ret in H as (data & name & c & He & Hf & Hc & Hsz & -> & ->).
  exists name, c, data. do 2 (split; [done|]). split; [done|].
  pose proof (encodeKV_Ret _ _ _ _ _ He) as (Hk & Hv & Hn & _).
  split; [done|]. split; [|done].
  intros Vk Vv. rewrite encodeKV_valid in He by done. by injection He as _ <-.
Qed.

Lemma Set_first_returns :
  returns (Set_ Ex.d0 Ex.othello Ex.shakespeare Ex.now Ex.w0) = true.
Proof. vm_compute. reflexivity. Qed.

(** X9, witness: the first [Set] on a fresh store. *)
Lemma X9_Set_appends_witness :
  match Set_ Ex.d0 Ex.othello Ex.shakespeare Ex.now Ex.w0 with
  | Ret (d', w') =>
    ∃ name c data,
      open_files Ex.w0 !! f Ex.d0 = Some name ∧ disk Ex.w0 !! name = Some c ∧
      disk w' = <[name := c ++ data]> (disk Ex.w0) ∧
      len data = 12 + len Ex.othello + len Ex.shakespeare ∧
      (utf8.Valid Ex.othello → utf8.Valid Ex.shakespeare →
       data = record (uint32 Ex.now) Ex.othello Ex.shakespeare) ∧
      open_files w' = open_files Ex.w0 ∧ f d' = f Ex.d0
  | Panic _ => False
  end.
Proof.
  pose proof Set_first_returns as H.
  destruct (Set_ Ex.d0 Ex.othello Ex.shakespeare Ex.now Ex.w0) as [[d' w']|p] eqn:E;
    [|discriminate H].
  exact (X9_Set_appends _ _ _ _ _ _ _ E).
Defined.

(** What has been read from a file is read again after an append. *)
Lemma ReadAt_append fd n off w w' name c data buf :
  open_files w' = open_files w → disk w !! name = Some c →
  disk w' = <[name := c ++ data]> (disk w) →
  ReadAt fd n off w = Ok buf → ReadAt fd n off w' = Ok buf.
Proof.
  intros Ho Hc Hd. unfold ReadAt. rewrite Ho, Hd.
  case_decide; [done|]. case_decide; [done|].
  destruct (open_files w !! fd) as [name2|]; [|done].
  destruct (decide (name2 = name)) as [->|Hne].
  - rewrite Hc, lookup_insert_eq. case_decide as Hin; [|done].
    intros [= <-]. pose proof (len_nonneg data).
    rewrite decide_True by (rewrite len_app; lia). f_equal.
    rewrite drop_app_le by (unfold len in *; lia).
    rewrite take_app_le; [done|]. rewrite length_drop. unfold len in *. lia.
  - by rewrite lookup_insert_ne.
Qed.

Lemma Set_keeps_other_keys d d2 k v now w d' w' k2 x :
  k2 ≠ k → Set_ d k v now w = Ret (d', w') →
  Get d2 k2 w = Ret x → Get d2 k2 w' = Ret x.
Proof.
  intros Hne H.
  apply Set_Ret in H as (data & name & c & He & Hf & Hc & Hsz & -> & ->).
  unfold Get. cbn [keyDir]. rewrite lookup_insert_ne by done.
  destruct (keyDir w !! k2) as [e|]; [|done].
  unfold read_entry.
  destruct (ReadAt (f d2) (ke_valueSize e) (valuePos e) w) as [buf|err] eqn:Hr;
    [|done].
  set (w' := mkWorld _ _ _ _).
  by rewrite (ReadAt_append _ _ _ w w' name c data buf eq_refl Hc eq_refl Hr).
Qed.

(** X10: a call of [Set] for a key that returns leaves what [Get] returned for
    every other key as it was, through every store. *)
Theorem X10_Set_keeps_other_keys d d2 k v now w d' w' k2 x :
  k2 ≠ k → Set_ d k v now w = Ret (d', w') →
  Get d2 k2 w = Ret x → Get d2 k2 w' = Ret x.
Proof. apply Set_keeps_other_keys. Qed.

(** X10, witness: a second key is set, and the first is read. *)
Lemma X10_Set_keeps_other_keys_witness :
  match Set_ Ex.d0 Ex.othello Ex.shakespeare Ex.now Ex.w0 with
  | Ret (d1, w1) =>
    match Set_ d1 Ex.ne Ex.marlowe Ex.now w1 with
    | Ret (d2, w2) => Get d1 Ex.othello w2 = Ret Ex.shakespeare
    | Panic _ => False
    end
  | Panic _ => False
  end.
Proof.
  assert (H : returns ('(d1, w1) ← Set_ Ex.d0 Ex.othello Ex.shakespeare Ex.now Ex.w0;
                       Set_ d1 Ex.ne Ex.marlowe Ex.now w1) = true)
    by (vm_compute; reflexivity).
  destruct (Set_ Ex.d0 Ex.othello Ex.shakespeare Ex.now Ex.w0) as [[d1 w1]|p] eqn:E1;
    [|discriminate H].
  cbn [mbind outcome_bind] in H.
  destruct (Set_ d1 Ex.ne Ex.marlowe Ex.now w1) as [[d2 w2]|p] eqn:E2;
    [|discriminate H].
  apply (X10_Set_keeps_other_keys d1 d1 Ex.ne Ex.marlowe Ex.now w1 d2 w2).
  - discriminate.
  - exact E2.
  - apply (Set_then_Get Ex.d0 Ex.othello Ex.shakespeare Ex.now Ex.w0);
      [apply store_ok_d0|valid_ascii|reflexivity|exact E1].
Defined.

(** X11: on a store in good order, for a key and a value of well-formed UTF-8
    shorter than [2^32] bytes and a file that stays within the range of
    an [int64] offset, [Set] returns; the store is in good order again,
    and its cursor has advanced by [12 + len(key) + len(value)]. *)
Theorem X11_Set_returns d k v now w :
  store_ok w d → utf8.Valid k → utf8.Valid v →
  len k < 2 ^ 32 → len v < 2 ^ 32 →
  curPos d + 12 + len k + len v <= maxInt64 →
  ∃ d' w', Set_ d k v now w = Ret (d', w') ∧ store_ok w' d' ∧
           curPos d' = curPos d + 12 + len k + len v.
Proof.
  intros Hok Vk Vv Hk Hv Hroom.
  destruct (Set_returns d k v now w) as (d' & w' & H); [done..|].
  exists d', w'. split; [done|]. split; [by eapply Set_store_ok|].
  pose proof (Set_index_entry _ _ _ _ _ _ _ Hok H) as (_ & Hc). lia.
Qed.

(** X11, witness: a key with a two-byte rune on a fresh store. *)
Lemma X11_Set_returns_witness :
  ∃ d' w', Set_ Ex.d0 Ex.ne Ex.shakespeare Ex.now Ex.w0 = Ret (d', w') ∧
           store_ok w' d' ∧
           curPos d' = curPos Ex.d0 + 12 + len Ex.ne + len Ex.shakespeare.
Proof.
  apply X11_Set_returns.
  - apply store_ok_d0.
  - apply utf8.Valid_1; [reflexivity|]. apply utf8.Valid_2; [reflexivity|].
    constructor.
  - valid_ascii.
  - reflexivity.
  - reflexivity.
  - vm_compute. discriminate.
Defined.

(** ** A store as a map *)

Lemma Get_same_file d1 d2 k w : f d1 = f d2 → Get d1 k w = Get d2 k w.
Proof. intros H. unfold Get, read_entry. by rewrite H. Qed.

Lemma Set_f d k v now w d' w' : Set_ d k v now w = Ret (d', w') → f d' = f d.
Proof.
  intros H. by apply Set_Ret in H as (? & ? & ? & _ & _ & _ & _ & _ & ->).
Qed.

Lemma set_all_map d ops : ∀ w m d' w',
  store_ok w d → (∀ k, Get d k w = Ret (default [] (m !! k))) →
  Forall (λ '(k, v, _), 12 + len k < 2 ^ 32 ∧ utf8.Valid v) ops →
  set_all d ops w = Ret (d', w') →
  store_ok w' d' ∧ ∀ k, Get d' k w' = Ret (default [] (assign ops m !! k)).
Proof.
  revert d. induction ops as [|[[k v] now] ops IH]; intros d w m d' w' Hok Hm Hops H.
  - cbn in H. injection H as <- <-. done.
  - apply Forall_cons in Hops as ((Hk & Vv) & Hops).
    cbn [set_all] in H. apply bind_Ret in H as ([d1 w1] & H1 & H).
    apply (IH d1 w1 (<[k := v]> m)); [by eapply Set_store_ok| |done|done].
    intros k2. destruct (decide (k2 = k)) as [->|Hne].
    + rewrite lookup_insert_eq. cbn [default].
      by apply (Set_then_Get d k v now w).
    + rewrite lookup_insert_ne by done.
      apply (Set_keeps_other_keys d d1 k v now w d1 w1); [done|done|].
      rewrite (Get_same_file d1 d); [done|]. by eapply Set_f.
Qed.

(** X12: a store behaves as a map. When [Get] on a store in good order answers
    as the map [m] does (the empty string for an absent key), then after
    any calls of [Set] that have all returned, with keys shorter than
    [2^32 - 12] bytes and values of well-formed UTF-8, the store is in
    good order and [Get] answers as [m] with the pairs assigned in
    order. *)
Theorem X12_set_all_map d ops w m d' w' :
  store_ok w d → (∀ k, Get d k w = Ret (default [] (m !! k))) →
  Forall (λ '(k, v, _), 12 + len k < 2 ^ 32 ∧ utf8.Valid v) ops →
  set_all d ops w = Ret (d', w') →
  store_ok w' d' ∧ ∀ k, Get d' k w' = Ret (default [] (assign ops m !! k)).
Proof. apply set_all_map. Qed.

Lemma keyDir_w0 : keyDir Ex.w0 = ∅.
Proof. unfold Ex.w0. by rewrite NewDiskStore_keyDir. Qed.

Lemma plays_return : returns (set_all Ex.d0 plays Ex.w0) = true.
Proof. vm_compute. reflexivity. Qed.

(** X12, witness: three calls on two keys. *)
Lemma X12_set_all_map_witness :
  match set_all Ex.d0 plays Ex.w0 with
  | Ret (d', w') =>
    store_ok w' d' ∧ ∀ k, Get d' k w' = Ret (default [] (assign plays ∅ !! k))
  | Panic _ => False
  end.
Proof.
  pose proof plays_return as H.
  destruct (set_all Ex.d0 plays Ex.w0) as [[d' w']|p] eqn:E; [|discriminate H].
  apply (X12_set_all_map Ex.d0 plays Ex.w0 ∅ d' w').
  - apply store_ok_d0.
  - intros k. unfold Get. rewrite keyDir_w0. reflexivity.
  - unfold plays.
    repeat (apply Forall_cons; split;
            [cbv beta iota; split; [reflexivity|valid_ascii]|]).
    apply Forall_nil_2.
  - exact E.
Defined.

(** ** The file as a log *)

Lemma len_record ts k v : len (record ts k v) = 12 + len k + len v.
Proof. unfold record. rewrite !len_app, len_header_bytes. lia. Qed.

Lemma set_all_log d ops : ∀ w d' w' name c,
  open_files w !! f d = Some name → disk w !! name = Some c → curPos d = len c →
  Forall (λ '(k, v, _), utf8.Valid k ∧ utf8.Valid v) ops →
  set_all d ops w = Ret (d', w') →
  disk w' = <[name := c ++ log ops]> (disk w) ∧
  curPos d' = len c + len (log ops).
Proof.
  revert d. induction ops as [|[[k v] now] ops IH];
    intros d w d' w' name c Hf Hc Hp Hops H.
  - cbn in H. injection H as <- <-. unfold log. cbn [fmap list_fmap concat].
    rewrite app_nil_r, insert_id by done. unfold len at 2. cbn [length]. 
    split; [done|lia].
  - apply Forall_cons in Hops as ((Vk & Vv) & Hops).
    cbn [set_all] in H. apply bind_Ret in H as ([d1 w1] & H1 & H).
    apply Set_Ret in H1 as (data & name' & c' & He & Hf' & Hc' & Hsz & -> & ->).
    rewrite Hf in Hf'. injection Hf' as <-. rewrite Hc in Hc'. injection Hc' as <-.
    pose proof (encodeKV_Ret _ _ _ _ _ He) as (Hk & Hv & _).
    rewrite encodeKV_valid in He by done.
    assert (Hd : data = record (uint32 now) k v) by (unfold record; congruence).
    clear He. subst data.
    apply (IH _ _ _ _ name (c ++ record (uint32 now) k v)) in H; cbn [f open_files disk curPos];
      [|done|by rewrite lookup_insert_eq| |done].
    + destruct H as (Hdisk & Hcur). cbn [disk] in Hdisk.
      rewrite insert_insert_eq in Hdisk.
      unfold log. cbn [fmap list_fmap concat]. fold (log ops).
      rewrite app_assoc. split; [done|].
      rewrite Hcur, !len_app. lia.
    + rewrite Hp, len_app. apply int64_small.
      pose proof (len_nonneg c). pose proof (len_nonneg (record (uint32 now) k v)).
      unfold maxInt64 in *. lia.
Qed.

(** X13: the file is a log. After any calls of [Set] on a store in good order
    that have all returned, with keys and values of well-formed UTF-8, the
    file of the store holds its old bytes followed by the records of the
    calls in their order, every other file is as it was, and the cursor
    has advanced by the length of those records. *)
Theorem X13_set_all_log d ops w d' w' :
  store_ok w d →
  Forall (λ '(k, v, _), utf8.Valid k ∧ utf8.Valid v) ops →
  set_all d ops w = Ret (d', w') →
  ∃ name c, open_files w !! f d = Some name ∧ disk w !! name = Some c ∧
    disk w' = <[name := c ++ log ops]> (disk w) ∧
    curPos d' = curPos d + len (log ops).
Proof.
  intros (name & c & Hf & Hc & Hp) Hops H. exists name, c.
  do 2 (split; [done|]).
  destruct (set_all_log d ops w d' w' name c Hf Hc Hp Hops H) as (? & ?).
  split; [done|lia].
Qed.

(** X13, witness: three calls on two keys. *)
Lemma X13_set_all_log_witness :
  match set_all Ex.d0 plays Ex.w0 with
  | Ret (d', w') =>
    ∃ name c, open_files Ex.w0 !! f Ex.d0 = Some name ∧
      disk Ex.w0 !! name = Some c ∧
      disk w' = <[name := c ++ log plays]> (disk Ex.w0) ∧
      curPos d' = curPos Ex.d0 + len (log plays)
  | Panic _ => False
  end.
Proof.
  pose proof plays_return as H.
  destruct (set_all Ex.d0 plays Ex.w0) as [[d' w']|p] eqn:E; [|discriminate H].
  apply (X13_set_all_log Ex.d0 plays Ex.w0 d' w').
  - apply store_ok_d0.
  - unfold plays.
    apply Forall_cons; split; [split; valid_ascii|].
    apply Forall_cons; split;
      [split; [|valid_ascii];
       apply utf8.Valid_1; [reflexivity|]; apply utf8.Valid_2; [reflexivity|];
       constructor|].
    apply Forall_cons; split; [split; valid_ascii|].
    apply Forall_nil_2.
  - exact E.
Defined.

(** ** Opening and closing *)

Lemma NewDiskStore_world name w d w' :
  NewDiskStore name w = (Ok d, w') →
  curPos d = from_option len 0 (disk w !! name) ∧
  disk w' !! name = Some (default [] (disk w !! name)) ∧
  (∀ n, n ≠ name → disk w' !! n = disk w !! n) ∧
  keyDir w' = keyDir w.
Proof.
  unfold NewDiskStore, Stat, OpenFile.
  destruct (disk w !! name) as [c|] eqn:Hc; cbn; intros [= <- <-]; cbn.
  - by rewrite Hc.
  - rewrite lookup_insert_eq. repeat split; try done.
    intros n Hn. by rewrite lookup_insert_ne.
Qed.

(** X14: a store that [NewDiskStore] has returned is in good order: its cursor
    is the size the file had, or 0 when there was no file, which is then
    created empty; the bytes of an existing file, the other files and the
    index are as they were. [isFileExists] tells whether the file is on
    disk, and after [NewDiskStore] it says yes. *)
Theorem X14_NewDiskStore_opens name w d w' :
  NewDiskStore name w = (Ok d, w') →
  store_ok w' d ∧
  curPos d = from_option len 0 (disk w !! name) ∧
  disk w' !! name = Some (default [] (disk w !! name)) ∧
  (∀ n, n ≠ name → disk w' !! n = disk w !! n) ∧
  keyDir w' = keyDir w ∧
  isFileExists name w = bool_decide (is_Some (disk w !! name)) ∧
  isFileExists name w' = true.
Proof.
  intros H. split; [by eapply NewDiskStore_store_ok|].
  pose proof (NewDiskStore_world name w d w' H) as (Hc & Hd & Hn & Hk).
  do 4 (split; [done|]). unfold isFileExists, Stat. rewrite Hd. split; [|done].
  destruct (disk w !! name) as [c|].
  - by rewrite bool_decide_eq_true_2.
  - rewrite bool_decide_eq_false_2; [done|]. by intros [? ?].
Qed.

(** X14, witness: the first store of a process on an empty disk. *)
Lemma X14_NewDiskStore_opens_witness :
  store_ok Ex.w0 Ex.d0 ∧
  curPos Ex.d0 = from_option len 0 (disk (boot ∅) !! Ex.db) ∧
  disk Ex.w0 !! Ex.db = Some (default [] (disk (boot ∅) !! Ex.db)) ∧
  (∀ n, n ≠ Ex.db → disk Ex.w0 !! n = disk (boot ∅) !! n) ∧
  keyDir Ex.w0 = keyDir (boot ∅) ∧
  isFileExists Ex.db (boot ∅) = bool_decide (is_Some (disk (boot ∅) !! Ex.db)) ∧
  isFileExists Ex.db Ex.w0 = true.
Proof. apply (X14_NewDiskStore_opens Ex.db (boot ∅)). reflexivity. Defined.



(** X16: in a process that has just started, a store that [NewDiskStore] has
    returned answers every [Get] with the empty string, whatever the file
    holds; the file still holds what it held. *)
Theorem X16_new_process_finds_nothing name files d w k :
  NewDiskStore name (boot files) = (Ok d, w) →
  disk w !! name = Some (default [] (files !! name)) ∧ Get d k w = Ret [].
Proof.
  intros H.
  pose proof (NewDiskStore_world name (boot files) d w H) as (_ & Hd & _ & Hk).
  split; [done|]. unfold Get. by rewrite Hk.
Qed.

(** X16, witness: a file that holds the record of "othello". *)
Lemma X16_new_process_finds_nothing_witness :
  disk (NewDiskStore Ex.db (boot {[Ex.db := record 1 Ex.othello Ex.shakespeare]})).2
    !! Ex.db
  = Some (default [] (({[Ex.db := record 1 Ex.othello Ex.shakespeare]}
                        : gmap (list byte) (list byte)) !! Ex.db)) ∧
  Get {| f := 0; curPos := 30 |} Ex.othello
      (NewDiskStore Ex.db (boot {[Ex.db := record 1 Ex.othello Ex.shakespeare]})).2
  = Ret [].
Proof.
  apply (X16_new_process_finds_nothing Ex.db
           {[Ex.db := record 1 Ex.othello Ex.shakespeare]}).
  reflexivity.
Defined.

(** ** The index and the file *)

Lemma take_drop_app_le {A} (c data : list A) (off n : nat) :
  (off + n ≤ length c)%nat →
  take n (drop off (c ++ data)) = take n (drop off c).
Proof.
  intros H. rewrite drop_app_le by lia. apply take_app_le.
  rewrite length_drop. lia.
Qed.

Lemma entry_ok_append c data key e : entry_ok c key e → entry_ok (c ++ data) key e.
Proof.
  intros (Hp & Hs & Hin & v & Hv). pose proof (len_nonneg data).
  split; [done|]. split; [done|]. split; [rewrite len_app; lia|].
  exists v. rewrite take_drop_app_le; [done|]. unfold len in *. lia.
Qed.

Lemma Set_index_ok d k v now w d' w' :
  index_ok w d → utf8.Valid k → utf8.Valid v → 12 + len k < 2 ^ 32 →
  Set_ d k v now w = Ret (d', w') → index_ok w' d'.
Proof.
  intros (name & c & Hf & Hc & Hp & Hall) Vk Vv Hk H.
  pose proof H as H'.
  apply Set_Ret in H' as (data & name' & c' & He & Hf' & Hc' & Hsz & -> & ->).
  rewrite Hf in Hf'. injection Hf' as <-. rewrite Hc in Hc'. injection Hc' as <-.
  pose proof (encodeKV_Ret _ _ _ _ _ He) as (_ & Hv & Hn & _).
  pose proof (len_nonneg k). pose proof (len_nonneg v). pose proof (len_nonneg c).
  rewrite encodeKV_valid in He by (done || lia).
  assert (Hd : data = record (uint32 now) k v) by (unfold record; congruence).
  clear He.
  exists name, (c ++ data). cbn [f open_files disk curPos keyDir].
  split; [done|]. split; [by rewrite lookup_insert_eq|]. split.
  { rewrite Hp, len_app. apply int64_small. unfold maxInt64 in *. lia. }
  intros key e. destruct (decide (key = k)) as [->|Hne].
  - rewrite lookup_insert_eq. intros [= <-].
    unfold entry_ok, entry_of.
    cbn [valuePos ke_valueSize ke_timestamp].
    split; [lia|]. split; [lia|]. split; [rewrite len_app; lia|].
    exists v. rewrite Hp. unfold len at 1 2. rewrite !Nat2Z.id.
    rewrite drop_app_length, take_ge by lia. rewrite Hd.
    apply decodeKV_record; [apply uint32_range|lia|lia].
  - rewrite lookup_insert_ne by done. intros He.
    apply entry_ok_append. by apply Hall.
Qed.

(** X17: [Set] keeps the index in step with the file. When every entry of the
    index points at bytes of the store's file that decode to the entry's
    timestamp and to its key, and the cursor is the length of the file,
    then the same holds after a call of [Set] that returns, for a key
    shorter than [2^32 - 12] bytes and a key and a value of well-formed
    UTF-8. *)
Theorem X17_Set_keeps_index_in_step d k v now w d' w' :
  index_ok w d → utf8.Valid k → utf8.Valid v → 12 + len k < 2 ^ 32 →
  Set_ d k v now w = Ret (d', w') → index_ok w' d'.
Proof. apply Set_index_ok. Qed.

(** A store opened by a new process has an empty index, which is in step
    with any file. *)
Lemma NewDiskStore_index_ok name files d w :
  NewDiskStore name (boot files) = (Ok d, w) → index_ok w d.
Proof.
  intros H. pose proof (NewDiskStore_store_ok _ _ _ _ H) as (n & c & Hf & Hc & Hp).
  pose proof (NewDiskStore_world _ _ _ _ H) as (_ & _ & _ & Hk).
  exists n, c. do 3 (split; [done|]). intros key e. by rewrite Hk.
Qed.

Lemma index_ok_w0 : index_ok Ex.w0 Ex.d0.
Proof. by apply (NewDiskStore_index_ok Ex.db ∅). Qed.

(** X17, witness: the first [Set] on a fresh store. *)
Lemma X17_Set_keeps_index_in_step_witness :
  match Set_ Ex.d0 Ex.othello Ex.shakespeare Ex.now Ex.w0 with
  | Ret (d', w') => index_ok w' d'
  | Panic _ => False
  end.
Proof.
  pose proof Set_first_returns as H.
  destruct (Set_ Ex.d0 Ex.othello Ex.shakespeare Ex.now Ex.w0) as [[d' w']|p] eqn:E;
    [|discriminate H].
  apply (X17_Set_keeps_index_in_step Ex.d0 Ex.othello Ex.shakespeare Ex.now Ex.w0).
  - apply index_ok_w0.
  - valid_ascii.
  - valid_ascii.
  - reflexivity.
  - exact E.
Defined.

(** X18: on a store whose index is in step with its file, [Get] does not
    panic: for a key without an entry it returns the empty string, and for
    a key with an entry it returns the value of the record that the entry
    points at, a record with that key and the timestamp of the entry. *)
Theorem X18_Get_reads_its_record d w k :
  index_ok w d →
  match keyDir w !! k with
  | None => Get d k w = Ret []
  | Some e =>
    ∃ name c v, open_files w !! f d = Some name ∧ disk w !! name = Some c ∧
      decodeKV (take (Z.to_nat (ke_valueSize e)) (drop (Z.to_nat (valuePos e)) c))
      = Ret (ke_timestamp e, k, v) ∧
      Get d k w = Ret v
  end.
Proof.
  intros (name & c & Hf & Hc & Hp & Hall). unfold Get.
  destruct (keyDir w !! k) as [e|] eqn:He; [|done].
  destruct (Hall k e He) as (H0 & Hs & Hin & v & Hv).
  exists name, c, v. do 3 (split; [done|]).
  unfold read_entry, ReadAt. rewrite !decide_False by lia.
  rewrite Hf, Hc, decide_True by lia. by rewrite Hv.
Qed.

(** X18, witness: the key of the first [Set] on a fresh store. *)
Lemma X18_Get_reads_its_record_witness :
  match Set_ Ex.d0 Ex.othello Ex.shakespeare Ex.now Ex.w0 with
  | Ret (d', w') =>
    match keyDir w' !! Ex.othello with
    | None => Get d' Ex.othello w' = Ret []
    | Some e =>
      ∃ name c v, open_files w' !! f d' = Some name ∧ disk w' !! name = Some c ∧
        decodeKV (take (Z.to_nat (ke_valueSize e)) (drop (Z.to_nat (valuePos e)) c))
        = Ret (ke_timestamp e, Ex.othello, v) ∧
        Get d' Ex.othello w' = Ret v
    end
  | Panic _ => False
  end.
Proof.
  pose proof Set_first_returns as H.
  destruct (Set_ Ex.d0 Ex.othello Ex.shakespeare Ex.now Ex.w0) as [[d' w']|p] eqn:E;
    [|discriminate H].
  apply X18_Get_reads_its_record.
  apply (Set_index_ok Ex.d0 Ex.othello Ex.shakespeare Ex.now Ex.w0);
    [apply index_ok_w0|valid_ascii|valid_ascii|reflexivity|exact E].
Defined.

(** ** Two stores on one file *)

Lemma store_ok_w00_d0 : store_ok w00 Ex.d0.
Proof. exists Ex.db, []. by vm_compute. Qed.

Lemma store_ok_w00_d00 : store_ok w00 d00.
Proof. exists Ex.db, []. by vm_compute. Qed.

Lemma two_stores_return :
  returns ('(d1, w1) ← Set_ Ex.d0 Ex.othello Ex.shakespeare Ex.now w00;
           Set_ d00 Ex.ne Ex.marlowe Ex.now w1) = true.
Proof. vm_compute. reflexivity. Qed.

(** X19: two stores on one file. After a call of [Set] through a store in good
    order has returned, for a key shorter than [2^32 - 12] bytes and a
    value of well-formed UTF-8, [Get] through any other store that is open
    on the same file returns that value. *)
Theorem X19_Get_through_other_store d1 d2 k v now w d1' w' :
  store_ok w d1 → open_files w !! f d2 = open_files w !! f d1 →
  utf8.Valid v → 12 + len k < 2 ^ 32 →
  Set_ d1 k v now w = Ret (d1', w') → Get d2 k w' = Ret v.
Proof.
  intros (name & c & Hf & Hc & Hp) Hsame Vv Hk H.
  apply Set_Ret in H as (data & name' & c' & He & Hf' & Hc' & Hsz & -> & ->).
  rewrite Hf in Hf'. injection Hf' as <-. rewrite Hc in Hc'. injection Hc' as <-.
  pose proof (encodeKV_Ret _ _ _ _ _ He) as (_ & _ & Hn & _).
  pose proof (len_nonneg k). pose proof (len_nonneg v).
  apply decodeKV_encoded in He as (k' & Hdec); [|apply uint32_range|done|done].
  unfold Get, read_entry. cbn [keyDir]. rewrite lookup_insert_eq.
  cbn [entry_of ke_valueSize valuePos f]. rewrite Hp.
  rewrite (ReadAt_appended (f d2) name c data);
    [|cbn; by rewrite Hsame|cbn; by rewrite lookup_insert_eq|lia].
  by rewrite Hdec.
Qed.

(** X19, witness: the file is opened twice. *)
Lemma X19_Get_through_other_store_witness :
  match Set_ Ex.d0 Ex.othello Ex.shakespeare Ex.now w00 with
  | Ret (_, w') => Get d00 Ex.othello w' = Ret Ex.shakespeare
  | Panic _ => False
  end.
Proof.
  pose proof two_stores_return as H.
  destruct (Set_ Ex.d0 Ex.othello Ex.shakespeare Ex.now w00) as [[d1 w1]|p] eqn:E;
    [|discriminate H].
  apply (X19_Get_through_other_store Ex.d0 d00 Ex.othello Ex.shakespeare Ex.now w00 d1).
  - apply store_ok_w00_d0.
  - reflexivity.
  - valid_ascii.
  - reflexivity.
  - exact E.
Defined.

(** X20: two stores in good order on one file, and a call of [Set] through each,
    on different keys. The file holds both records one after the other,
    and both entries of the index have the offset of the first record: the
    cursor of the second store was not moved by the call through the
    first. *)
Theorem X20_stale_cursor d1 d2 k1 v1 now1 k2 v2 now2 w d1' w1 d2' w2 :
  store_ok w d1 → store_ok w d2 →
  open_files w !! f d2 = open_files w !! f d1 → k1 ≠ k2 →
  Set_ d1 k1 v1 now1 w = Ret (d1', w1) →
  Set_ d2 k2 v2 now2 w1 = Ret (d2', w2) →
  ∃ name c r1 r2 e1 e2,
    disk w !! name = Some c ∧ disk w2 !! name = Some (c ++ r1 ++ r2) ∧
    len r1 = 12 + len k1 + len v1 ∧ len r2 = 12 + len k2 + len v2 ∧
    keyDir w2 !! k1 = Some e1 ∧ keyDir w2 !! k2 = Some e2 ∧
    valuePos e1 = len c ∧ valuePos e2 = len c.
Proof.
  intros (name & c & Hf & Hc & Hp) (name2 & c2 & Hf2 & Hc2 & Hp2) Hsame Hne H1 H2.
  rewrite Hsame, Hf in Hf2. injection Hf2 as <-.
  rewrite Hc in Hc2. injection Hc2 as <-.
  apply Set_Ret in H1 as (r1 & n1 & c1 & He1 & Hf1 & Hc1 & _ & -> & ->).
  rewrite Hf in Hf1. injection Hf1 as <-. rewrite Hc in Hc1. injection Hc1 as <-.
  apply Set_Ret in H2 as (r2 & n2 & c2 & He2 & Hf2 & Hc2 & _ & -> & ->).
  cbn [open_files disk keyDir] in *.
  rewrite Hsame, Hf in Hf2. injection Hf2 as <-.
  rewrite lookup_insert_eq in Hc2. injection Hc2 as <-.
  apply encodeKV_Ret in He1 as (_ & _ & Hn1 & _).
  apply encodeKV_Ret in He2 as (_ & _ & Hn2 & _).
  exists name, c, r1, r2, (entry_of now1 (curPos d1) (len r1)),
    (entry_of now2 (curPos d2) (len r2)).
  split; [done|]. split; [by rewrite lookup_insert_eq, app_assoc|].
  do 2 (split; [done|]).
  split; [by rewrite lookup_insert_ne, lookup_insert_eq|].
  split; [by rewrite lookup_insert_eq|]. done.
Qed.

(** X20, witness: the file is opened twice, and each store sets a key. *)
Lemma X20_stale_cursor_witness :
  match Set_ Ex.d0 Ex.othello Ex.shakespeare Ex.now w00 with
  | Ret (_, w1) =>
    match Set_ d00 Ex.ne Ex.marlowe Ex.now w1 with
    | Ret (_, w2) =>
      ∃ name c r1 r2 e1 e2,
        disk w00 !! name = Some c ∧ disk w2 !! name = Some (c ++ r1 ++ r2) ∧
        len r1 = 12 + len Ex.othello + len Ex.shakespeare ∧
        len r2 = 12 + len Ex.ne + len Ex.marlowe ∧
        keyDir w2 !! Ex.othello = Some e1 ∧ keyDir w2 !! Ex.ne = Some e2 ∧
        valuePos e1 = len c ∧ valuePos e2 = len c
    | Panic _ => False
    end
  | Panic _ => False
  end.
Proof.
  pose proof two_stores_return as H.
  destruct (Set_ Ex.d0 Ex.othello Ex.shakespeare Ex.now w00) as [[d1 w1]|p] eqn:E1;
    [|discriminate H].
  cbn [mbind outcome_bind] in H.
  destruct (Set_ d00 Ex.ne Ex.marlowe Ex.now w1) as [[d2 w2]|p] eqn:E2;
    [|discriminate H].
  apply (X20_stale_cursor Ex.d0 d00 Ex.othello Ex.shakespeare Ex.now
           Ex.ne Ex.marlowe Ex.now w00 d1 w1 d2 w2).
  - apply store_ok_w00_d0.
  - apply store_ok_w00_d00.
  - reflexivity.
  - discriminate.
  - exact E1.
  - exact E2.
Defined.

(** ** The length that a header tells *)

(** X21: whenever [encodeKV] returns, whatever bytes the key and the value
    hold, the first 12 bytes of the buffer are a header with the lengths
    of the key and of the value, and [KeyLen] of that header is the
    length of the buffer, which is the length that was returned. *)
Theorem X21_KeyLen_of_record ts k v n buf :
  encodeKV ts k v = Ret (n, buf) →
  ∃ h, headerFromBytes (take 12 buf) = Ret (Ok h) ∧
       keySize h = len k ∧ valueSize h = len v ∧
       KeyLen h = n ∧ n = len buf.
Proof.
  intros H. apply encodeKV_Ret in H as (Hk & Hv & Hn & Hl & Hh & _).
  pose proof (len_nonneg k). pose proof (len_nonneg v).
  eexists. rewrite Hh, headerFromBytes_header_bytes. split; [done|].
  unfold KeyLen. cbn [timestamp keySize valueSize].
  rewrite !uint32_small by lia. repeat split; lia.
Qed.

(** X21, witness: a value that is not UTF-8. *)
Lemma X21_KeyLen_of_record_witness :
  match encodeKV Ex.now Ex.othello Ex.not_utf8 with
  | Ret (n, buf) =>
    ∃ h, headerFromBytes (take 12 buf) = Ret (Ok h) ∧
         keySize h = len Ex.othello ∧ valueSize h = len Ex.not_utf8 ∧
         KeyLen h = n ∧ n = len buf
  | Panic _ => False
  end.
Proof.
  assert (H : returns (encodeKV Ex.now Ex.othello Ex.not_utf8) = true)
    by (vm_compute; reflexivity).
  destruct (encodeKV Ex.now Ex.othello Ex.not_utf8) as [[n buf]|p] eqn:E;
    [|discriminate H].
  exact (X21_KeyLen_of_record _ _ _ _ _ E).
Defined.
